(** * Role-based cooperation workflow (src/main.ts)

    A shallow embedding of the plan -> assign roles -> execute -> report
    workflow of [RoleBasedCooperation], and the properties its specification
    states about it.

    What lives outside the repository is taken as a parameter of the
    development: the query decomposer, the chat model, the JSON reader of the
    structured-output parser and the tool-using agent.  Each of them may fail
    and may answer differently on every call, so they run in a small monad
    that threads an abstract [World] and an [Error].  The zod schemas, the
    four components, the graph and the graph's driver loop are definitions. *)

From Stdlib Require Import Ascii String.
From stdpp Require Import base numbers list strings pretty.

Local Open Scope string_scope.

(** ** Errors and results *)

Inductive Error : Type :=
| TypeError (msg : string)        (* a JS property read on [undefined] *)
| OutputParserException           (* the structured output was rejected *)
| ExternalError (msg : string)    (* a failed LLM, tool or decomposer call *)
| GraphRecursionError             (* the graph ran out of super-steps *)
| InvalidRecursionLimit.          (* a plain [Error]: the limit passed is below 1 *)

Inductive Result (A : Type) : Type :=
| Ok (a : A)
| Err (e : Error).
Arguments Ok {A} a.
Arguments Err {A} e.

#[global] Instance Result_ret : MRet Result := fun _ a => Ok a.
#[global] Instance Result_bind : MBind Result := fun _ _ f r =>
  match r with Ok a => f a | Err e => Err e end.
#[global] Instance Result_fmap : FMap Result := fun _ _ f r =>
  match r with Ok a => Ok (f a) | Err e => Err e end.

(** ** Strings as the source builds them *)

(** The line feed of the source's ["\n"]. *)
Definition LF : string := String "010"%char EmptyString.

(** [Array.prototype.join]: the elements separated by [sep]. *)
Fixpoint Array_join (sep : string) (l : list string) : string :=
  match l with
  | [] => ""
  | x :: l' =>
      match l' with
      | [] => x
      | _ :: _ => x +:+ sep +:+ Array_join sep l'
      end
  end.

(** [x] occurs in [s]. *)
Definition occurs_in (x s : string) : Prop :=
  exists pre post : string, s = pre +:+ x +:+ post.

(** [x] occurs in [s], and [y] occurs after it. *)
Definition occur_in_order (x y s : string) : Prop :=
  exists a b c : string, s = a +:+ x +:+ b +:+ y +:+ c.

(** ** JSON values and the zod schemas of the source *)

#[warnings="-register-all"]
Inductive Json : Type :=
| JNull
| JBool (b : bool)
| JNumber (n : Z)
| JString (s : string)
| JArray (items : list Json)
| JObject (fields : list (string * Json)).

(** [obj[key]]: [None] stands for JS [undefined]. *)
Fixpoint obj_get (fields : list (string * Json)) (key : string) : option Json :=
  match fields with
  | [] => None
  | (k, v) :: rest => if String.eqb k key then Some v else obj_get rest key
  end.

(** A zod schema is embedded as its parser: from the value found (or not
    found) at some place to the typed value, or the parser's rejection. *)
Definition Zod (A : Type) : Type := option Json -> Result A.

Definition z_string : Zod string := fun v =>
  match v with
  | Some (JString s) => Ok s
  | _ => Err OutputParserException
  end.

Definition z_array {A} (element : Zod A) : Zod (list A) := fun v =>
  match v with
  | Some (JArray items) => mapM (fun j => element (Some j)) items
  | _ => Err OutputParserException
  end.

(** [schema.optional()]: an absent key is accepted, [null] is not. *)
Definition z_optional {A} (inner : Zod A) : Zod (option A) := fun v =>
  match v with
  | None => Ok None
  | Some _ => Some <$> inner v
  end.

(** [z.object(shape)]: the shape reads the keys it names; other keys are
    dropped. *)
Definition z_object {A} (shape : (string -> option Json) -> Result A) : Zod A :=
  fun v =>
    match v with
    | Some (JObject fields) => shape (obj_get fields)
    | _ => Err OutputParserException
    end.

Module Role.
Record t : Type := mk {
  name : string;
  description : string;
  keySkills : list string;
}.
End Role.
Abbreviation Role := Role.t.

Module Task.
Record t : Type := mk {
  description : string;
  role : option Role;
}.
End Task.
Abbreviation Task := Task.t.

Definition RoleSchema : Zod Role :=
  z_object (fun get =>
    name ← z_string (get "name");
    description ← z_string (get "description");
    keySkills ← z_array z_string (get "keySkills");
    mret (Role.mk name description keySkills)).

Definition TaskSchema : Zod Task :=
  z_object (fun get =>
    description ← z_string (get "description");
    role ← z_optional RoleSchema (get "role");
    mret (Task.mk description role)).

(** [TasksWithRoles] has the single field [tasks]; the parser yields it. *)
Definition TasksWithRolesSchema : Zod (list Task) :=
  z_object (fun get => z_array TaskSchema (get "tasks")).

(** The JSON object a value of each type is written as. *)
Definition Role_to_json (r : Role) : Json :=
  JObject [("name", JString (Role.name r));
           ("description", JString (Role.description r));
           ("keySkills", JArray (JString <$> Role.keySkills r))].

Definition Task_to_json (t : Task) : Json :=
  match Task.role t with
  | None => JObject [("description", JString (Task.description t))]
  | Some r => JObject [("description", JString (Task.description t));
                       ("role", Role_to_json r)]
  end.

Definition TasksWithRoles_to_json (ts : list Task) : Json :=
  JObject [("tasks", JArray (Task_to_json <$> ts))].

(** What the schemas require of a JSON value for it to be read as a given
    role or task: an object, with the named keys holding strings, the key
    skills an array of strings, and the role either absent or such a role. *)
Definition role_written (j : Json) (r : Role) : Prop :=
  exists fields,
    j = JObject fields /\
    obj_get fields "name" = Some (JString (Role.name r)) /\
    obj_get fields "description" = Some (JString (Role.description r)) /\
    obj_get fields "keySkills" = Some (JArray (JString <$> Role.keySkills r)).

Definition task_written (j : Json) (t : Task) : Prop :=
  exists fields,
    j = JObject fields /\
    obj_get fields "description" = Some (JString (Task.description t)) /\
    match obj_get fields "role" with
    | None => Task.role t = None
    | Some jr => exists r, Task.role t = Some r /\ role_written jr r
    end.

(** ** The workflow state and its channels *)

Record AgentState : Type := mkAgentState {
  query : string;
  tasks : list Task;
  currentTaskIndex : nat;
  results : list string;
  finalReport : string;
}.

(** [Partial<AgentState>]: what a node returns. *)
Record PartialAgentState : Type := mkPartial {
  upd_query : option string;
  upd_tasks : option (list Task);
  upd_currentTaskIndex : option nat;
  upd_results : option (list string);
  upd_finalReport : option string;
}.

(** How [StateGraph] merges a value a node has written into a state key.
    The rule is the graph library's, chosen per key by the state schema: a
    key declared without a reducer keeps the last value written; a key
    declared with a reducer combines the old value and the written one. *)
Inductive Channel (A : Type) : Type :=
| LastValue
| BinaryOperatorAggregate (reducer : A -> A -> A).
Arguments LastValue {A}.
Arguments BinaryOperatorAggregate {A} reducer.

Definition Channel_update {A} (c : Channel A) (old : A) (written : option A) : A :=
  match written with
  | None => old
  | Some v =>
      match c with
      | LastValue => v
      | BinaryOperatorAggregate reducer => reducer old v
      end
  end.

Record StateSchema : Type := mkSchema {
  ch_query : Channel string;
  ch_tasks : Channel (list Task);
  ch_currentTaskIndex : Channel nat;
  ch_results : Channel (list string);
  ch_finalReport : Channel string;
}.

(** [AgentStateSchema] declares five plain zod fields ([z.string],
    [z.array], [z.number] with defaults) and a reducer on none of them. *)
Definition AgentStateSchema : StateSchema :=
  mkSchema LastValue LastValue LastValue LastValue LastValue.

(** The declaration the executor's one-element update is written for:
    [results] with a reducer that concatenates. *)
Definition accumulating : StateSchema :=
  mkSchema LastValue LastValue LastValue (BinaryOperatorAggregate app) LastValue.

Definition applyUpdate (schema : StateSchema) (s : AgentState)
    (u : PartialAgentState) : AgentState :=
  {| query := Channel_update (ch_query schema) (query s) (upd_query u);
     tasks := Channel_update (ch_tasks schema) (tasks s) (upd_tasks u);
     currentTaskIndex :=
       Channel_update (ch_currentTaskIndex schema) (currentTaskIndex s)
         (upd_currentTaskIndex u);
     results := Channel_update (ch_results schema) (results s) (upd_results u);
     finalReport :=
       Channel_update (ch_finalReport schema) (finalReport s) (upd_finalReport u) |}.

(** ** Chat messages and graph nodes *)

Record Message : Type := mkMessage {
  msg_role : string;
  content : string;
}.

Inductive Node : Type := planner | roleAssigner | executor | reporter.

#[global] Instance Node_eq_dec : EqDecision Node.
Proof. solve_decision. Defined.

Inductive Target : Type :=
| Goto (n : Node)
| END.

(** ** The components, over the external collaborators *)

Section Workflow.

(** The outside world the external calls read and change. *)
Context {World : Type}.

(** An effectful computation: it may fail, and it moves the world on. *)
Definition IO (A : Type) : Type := World -> Result A * World.

#[global] Instance IO_ret : MRet IO := fun _ a w => (Ok a, w).
#[global] Instance IO_bind : MBind IO := fun _ _ f c w =>
  match c w with
  | (Ok a, w') => f a w'
  | (Err e, w') => (Err e, w')
  end.

Definition throw {A} (e : Error) : IO A := fun w => (Err e, w).

Definition liftResult {A} (r : Result A) : IO A := fun w => (r, w).

(** [QueryDecomposer.run(query)], read at [.values]. *)
Variable queryDecomposer_run : string -> IO (list string).
(** The chat model on a formatted prompt: the text of its reply. *)
Variable llm_invoke : list Message -> IO string.
(** The JSON reader inside [StructuredOutputParser]: [None] when the text
    holds no JSON value. *)
Variable parse_json_markdown : string -> option Json.
(** [createReactAgent(llm, tools).invoke]: the [messages] of its result. *)
Variable baseAgent_invoke : list Message -> IO (list Message).

(** [StructuredOutputParser.fromZodSchema(schema)] applied to a reply. *)
Definition StructuredOutputParser {A} (schema : Zod A) (text : string) : Result A :=
  match parse_json_markdown text with
  | None => Err OutputParserException
  | Some j => schema (Some j)
  end.

(** [StringOutputParser]: the text as it is. *)
Definition StringOutputParser (text : string) : Result string := Ok text.

Definition Planner_run (query : string) : IO (list Task) :=
  decomposedTasks ← queryDecomposer_run query;
  mret ((fun task => Task.mk task None) <$> decomposedTasks).

Definition RoleAssigner_system : string :=
  "あなたは創造的な役割設計の専門家です。与えられたタスクに対して、ユニークで適切な役割を生成してください。".

Definition RoleAssigner_human (tasks : string) : string :=
  "タスク:" +:+ LF +:+ tasks +:+ LF +:+ LF +:+
  "これらのタスクに対して、以下の指示に従って役割を割り当ててください：" +:+ LF +:+
  "1. 各タスクに対して、独自の創造的な役割を考案してください。既存の職業名や一般的な役割名にとらわれる必要はありません。" +:+ LF +:+
  "2. 役割名は、そのタスクの本質を反映した魅力的で記憶に残るものにしてください。" +:+ LF +:+
  "3. 各役割に対して、その役割がなぜそのタスクに最適なのかを説明する詳細な説明を提供してください。" +:+ LF +:+
  "4. その役割が効果的にタスクを遂行するために必要な主要なスキルやアトリビュートを3つ挙げてください。" +:+ LF +:+ LF +:+
  "創造性を発揮し、タスクの本質を捉えた革新的な役割を生成してください。".

Definition RoleAssigner_prompt (tasks : list Task) : list Message :=
  [ mkMessage "system" RoleAssigner_system;
    mkMessage "human"
      (RoleAssigner_human (Array_join LF (Task.description <$> tasks))) ].

Definition RoleAssigner_run (tasks : list Task) : IO (list Task) :=
  text ← llm_invoke (RoleAssigner_prompt tasks);
  tasksWithRoles ← liftResult (StructuredOutputParser TasksWithRolesSchema text);
  mret tasksWithRoles.

Definition Executor_system (r : Role) : string :=
  "あなたは" +:+ Role.name r +:+ "です。" +:+ LF +:+
  "説明: " +:+ Role.description r +:+ LF +:+
  "主要なスキル: " +:+ Array_join ", " (Role.keySkills r) +:+ LF +:+
  "あなたの役割に基づいて、与えられたタスクを最高の能力で遂行してください。".

Definition Executor_human (description : string) : string :=
  "以下のタスクを実行してください：" +:+ LF +:+ LF +:+ description.

Definition Executor_messages (r : Role) (description : string) : list Message :=
  [ mkMessage "system" (Executor_system r);
    mkMessage "human" (Executor_human description) ].

(** [result.messages[result.messages.length - 1].content] *)
Definition last_content (messages : list Message) : IO string :=
  match last messages with
  | None => throw (TypeError "Cannot read properties of undefined (reading 'content')")
  | Some m => mret (content m)
  end.

(** The argument is [tasks[i]], which is [undefined] out of range.  The
    message array is built before the agent is called, so a missing task
    or a missing role throws before any external call. *)
Definition Executor_run (task : option Task) : IO string :=
  match task with
  | None => throw (TypeError "Cannot read properties of undefined (reading 'role')")
  | Some t =>
      match Task.role t with
      | None => throw (TypeError "Cannot read properties of undefined (reading 'name')")
      | Some r =>
          messages ← baseAgent_invoke (Executor_messages r (Task.description t));
          last_content messages
      end
  end.

Definition Reporter_system : string :=
  "あなたは総合的なレポート作成の専門家です。複数の情報源からの結果を統合し、洞察力に富んだ包括的なレポートを作成する能力があります。".

Definition Reporter_info (i : nat) (result : string) : string :=
  "Info " +:+ pretty (i + 1) +:+ ":" +:+ LF +:+ result.

Definition Reporter_results (results : list string) : string :=
  Array_join (LF +:+ LF) (imap Reporter_info results).

Definition Reporter_human (query results : string) : string :=
  "タスク: 以下の情報に基づいて、包括的で一貫性のある回答を作成してください。" +:+ LF +:+
  "要件:" +:+ LF +:+
  "1. 提供されたすべての情報を統合し、よく構成された回答にしてください。" +:+ LF +:+
  "2. 回答は元のクエリに直接応える形にしてください。" +:+ LF +:+
  "3. 各情報の重要なポイントや発見を含めてください。" +:+ LF +:+
  "4. 最後に結論や要約を提供してください。" +:+ LF +:+
  "5. 回答は詳細でありながら簡潔にし、250〜300語程度を目指してください。" +:+ LF +:+
  "6. 回答は日本語で行ってください。" +:+ LF +:+ LF +:+
  "ユーザーの依頼: " +:+ query +:+ LF +:+ LF +:+
  "収集した情報:" +:+ LF +:+ results.

Definition Reporter_prompt (query : string) (results : list string) : list Message :=
  [ mkMessage "system" Reporter_system;
    mkMessage "human" (Reporter_human query (Reporter_results results)) ].

Definition Reporter_run (query : string) (results : list string) : IO string :=
  text ← llm_invoke (Reporter_prompt query results);
  liftResult (StringOutputParser text).

(** ** The graph and its driver *)

(** A compiled graph: the channels of its state, a function per node, the
    entry node and, per node, where the run goes next once the node's
    update has been merged.  An unconditional edge ignores the state. *)
Record StateGraph : Type := mkGraph {
  schema : StateSchema;
  nodes : Node -> AgentState -> IO PartialAgentState;
  entryPoint : Node;
  edges : Node -> AgentState -> Target;
}.

(** One super-step of a run: the node entered, the state it was entered
    with, and the merged state it left, or the error it threw. *)
Record Step : Type := mkStep {
  step_node : Node;
  step_pre : AgentState;
  step_post : Result AgentState;
}.

Record Run : Type := mkRun {
  trace : list Step;
  outcome : Result AgentState;
  world_after : World;
}.

(** What one recorded step says: the node's function, run on the state the
    step was entered with, gave the update merged into the state the step
    left, or threw the error the step records. *)
Definition step_of_node (g : StateGraph) (st : Step) : Prop :=
  exists w w',
    match step_post st with
    | Ok s' => exists u,
        nodes g (step_node st) (step_pre st) w = (Ok u, w') /\
        s' = applyUpdate (schema g) (step_pre st) u
    | Err e => nodes g (step_node st) (step_pre st) w = (Err e, w')
    end.

(** The loop of [graph.invoke(input, { recursionLimit })]: the graph has
    one active node at a time, and every node entered spends one of the
    [limit] super-steps.  A node that throws ends the run with its error
    (nothing is caught or retried).  That no node is left to run is found
    at the start of the next super-step, so a run that reaches [END] ends
    well only if one super-step is left after its last node: a run of [N]
    nodes needs a limit of [N + 1].  When no super-step is left the run
    ends with [GraphRecursionError], also when the node just run was the
    last one. *)
Fixpoint superSteps (g : StateGraph) (limit : nat) (n : Node)
    (s : AgentState) (w : World) : Run :=
  match limit with
  | 0 => mkRun [] (Err GraphRecursionError) w
  | S limit' =>
      match nodes g n s w with
      | (Err e, w') => mkRun [mkStep n s (Err e)] (Err e) w'
      | (Ok u, w') =>
          let s' := applyUpdate (schema g) s u in
          match edges g n s' with
          | END =>
              mkRun [mkStep n s (Ok s')]
                (match limit' with
                 | 0 => Err GraphRecursionError
                 | S _ => Ok s'
                 end) w'
          | Goto n' =>
              let r := superSteps g limit' n' s' w' in
              mkRun (mkStep n s (Ok s') :: trace r) (outcome r) (world_after r)
          end
      end
  end.

(** [invoke] refuses a limit below 1 before any node is run. *)
Definition invoke (g : StateGraph) (input : AgentState) (recursionLimit : nat)
    (w : World) : Run :=
  match recursionLimit with
  | 0 => mkRun [] (Err InvalidRecursionLimit) w
  | S _ => superSteps g recursionLimit (entryPoint g) input w
  end.

(** *** [RoleBasedCooperation] *)

Definition planTasks (state : AgentState) : IO PartialAgentState :=
  tasks ← Planner_run (query state);
  mret {| upd_query := None; upd_tasks := Some tasks;
          upd_currentTaskIndex := None; upd_results := None;
          upd_finalReport := None |}.

Definition assignRoles (state : AgentState) : IO PartialAgentState :=
  tasksWithRoles ← RoleAssigner_run (tasks state);
  mret {| upd_query := None; upd_tasks := Some tasksWithRoles;
          upd_currentTaskIndex := None; upd_results := None;
          upd_finalReport := None |}.

Definition executeTask (state : AgentState) : IO PartialAgentState :=
  let currentTask := tasks state !! currentTaskIndex state in
  result ← Executor_run currentTask;
  mret {| upd_query := None; upd_tasks := None;
          upd_currentTaskIndex := Some (currentTaskIndex state + 1);
          upd_results := Some [result];
          upd_finalReport := None |}.

Definition generateReport (state : AgentState) : IO PartialAgentState :=
  report ← Reporter_run (query state) (results state);
  mret {| upd_query := None; upd_tasks := None;
          upd_currentTaskIndex := None; upd_results := None;
          upd_finalReport := Some report |}.

(** The nodes and edges of [createGraph], over any declaration of the
    state's channels. *)
Definition workflow (channels : StateSchema) : StateGraph :=
  {| schema := channels;
     nodes := fun n =>
       match n with
       | planner => planTasks
       | roleAssigner => assignRoles
       | executor => executeTask
       | reporter => generateReport
       end;
     entryPoint := planner;
     edges := fun n state =>
       match n with
       | planner => Goto roleAssigner
       | roleAssigner => Goto executor
       | executor =>
           if (currentTaskIndex state <? length (tasks state))%nat
           then Goto executor else Goto reporter
       | reporter => END
       end |}.

Definition createGraph : StateGraph := workflow AgentStateSchema.

Definition initialState (query : string) : AgentState :=
  {| query := query; tasks := []; currentTaskIndex := 0; results := [];
     finalReport := "" |}.

Definition recursionLimit : nat := 1000.

(** [run], with the whole run kept. *)
Definition run_graph (query : string) (w : World) : Run :=
  invoke createGraph (initialState query) recursionLimit w.

Definition run (query : string) : IO string := fun w =>
  let final := run_graph query w in
  (finalReport <$> outcome final, world_after final).

End Workflow.

Arguments IO World A : clear implicits.
Arguments Run World : clear implicits.
Arguments StateGraph World : clear implicits.

(** ** The invariant of a run

    Where the step at position [k] of a run is entered: the planner is
    step 0 and the role assigner step 1, both with index 0 and no result;
    an executor pass at index [i] is step [i + 2]; the reporter is entered
    with the index at the number of tasks.  The executor's update names a
    one-element [results], and the channel keeps the last value written. *)
Definition Inv (k : nat) (n : Node) (s : AgentState) : Prop :=
  match n with
  | planner => k = 0 /\ currentTaskIndex s = 0 /\ results s = []
  | roleAssigner => k = 1 /\ currentTaskIndex s = 0 /\ results s = []
  | executor =>
      k = currentTaskIndex s + 2 /\ currentTaskIndex s <= length (tasks s) /\
      (currentTaskIndex s = 0 -> results s = []) /\
      (0 < currentTaskIndex s -> length (results s) = 1)
  | reporter =>
      k = currentTaskIndex s + 2 /\ currentTaskIndex s = length (tasks s) /\
      0 < currentTaskIndex s /\ length (results s) = 1
  end.

(** ** Stub collaborators

    Deterministic stand-ins for the external calls, for running the workflow
    on concrete inputs.  The world counts the agent calls made so far. *)
Module Stub.

Definition World : Type := nat.

Definition decomposer (values : list string) (_ : string) : IO World (list string) :=
  fun w => (Ok values, w).

(** The model answers the role-assigner's prompt with [structured] and any
    other prompt with the prompt's human message. *)
Definition llm (structured : string) (prompt : list Message) : IO World string :=
  fun w =>
    match prompt with
    | [sys; human] =>
        if String.eqb (content sys) RoleAssigner_system
        then (Ok structured, w)
        else (Ok (content human), w)
    | _ => (Err (ExternalError "bad prompt"), w)
    end.

(** The JSON reader knows one text. *)
Definition reader (text : string) (value : Json) (s : string) : option Json :=
  if String.eqb s text then Some value else None.

(** The k-th agent call answers ["Result-k"], after echoing its input. *)
Definition agent (messages : list Message) : IO World (list Message) :=
  fun w =>
    (Ok (messages ++ [mkMessage "ai" ("Result-" +:+ pretty (w + 1))])%list, w + 1).

Definition explorer : Role :=
  Role.mk "Explorer" "Finds sources" ["search"; "reading"; "summarising"].

Definition with_role (d : string) : Task := Task.mk d (Some explorer).

(** The graph in which the decomposer yields [values] and the model's
    structured reply reads as [assigned], and a whole run of it. *)
Abbreviation graph values assigned :=
  (createGraph (decomposer values) (llm "<json>")
     (reader "<json>" (TasksWithRoles_to_json assigned)) agent).

Abbreviation run_graph values assigned limit query :=
  (invoke (graph values assigned) (initialState query) limit 0).

Definition unassigned (d : string) : Task := Task.mk d None.

(** The states such a run goes through: after the planner, and after [k]
    executor passes over the [assigned] tasks. *)
Definition planned (values : list string) (query : string) : AgentState :=
  mkAgentState query (unassigned <$> values) 0 [] "".

Definition executed (assigned : list Task) (query : string) (k : nat) : AgentState :=
  mkAgentState query assigned k
    (match k with 0 => [] | S _ => ["Result-" +:+ pretty k] end) "".

(** The state after the reporter: the stub model echoes the prompt. *)
Definition reported (assigned : list Task) (query : string) (k : nat) : AgentState :=
  mkAgentState query assigned k (results (executed assigned query k))
    (Reporter_human query (Reporter_results (results (executed assigned query k)))).

(** The steps of such a run. *)
Definition plan (values : list string) (query : string) : Step :=
  mkStep planner (initialState query) (Ok (planned values query)).

Definition assign (values : list string) (assigned : list Task) (query : string) : Step :=
  mkStep roleAssigner (planned values query) (Ok (executed assigned query 0)).

Definition pass (assigned : list Task) (query : string) (k : nat) : Step :=
  mkStep executor (executed assigned query k) (Ok (executed assigned query (k + 1))).

Definition report (assigned : list Task) (query : string) (k : nat) : Step :=
  mkStep reporter (executed assigned query k) (Ok (reported assigned query k)).

(** The scenario of the specification: two tasks, a role for each. *)
Definition compare : string := "Compare X and Y".
Definition two : list string := ["Research X"; "Research Y"].
Definition two_assigned : list Task := with_role <$> two.

Abbreviation two_task_run :=
  (run_graph two two_assigned recursionLimit compare).

(** The same scenario under a limit of four super-steps. *)
Abbreviation capped_run := (run_graph two two_assigned 4 compare).

(** The decomposer finds no task, and the model assigns none. *)
Abbreviation no_task_run := (run_graph [] [] recursionLimit compare).

(** A structured reply the schema accepts: one task without a role, one
    with a role of a single key skill. *)
Definition loosely_assigned : list Task :=
  [ unassigned "Research X";
    Task.mk "Research Y" (Some (Role.mk "Scout" "Looks around" ["search"])) ].

(** A structured reply that merges the two tasks into one. *)
Definition merged : list Task := [with_role "Research X and Y"].

(** [n] descriptions alike. *)
Definition many (n : nat) : list string := replicate n "Research".

(** As many tasks as the limit of [run] lets the reporter be entered with:
    997 tasks make 1000 nodes. *)
Abbreviation boundary_run :=
  (run_graph (many 997) (with_role <$> many 997) recursionLimit compare).

(** The decomposer finds more tasks than the limit, and the model's reply
    holds two. *)
Abbreviation shortened_run :=
  (run_graph (many 1001) two_assigned recursionLimit compare).

End Stub.

(** Unfold the binds of the [IO] monad and split on the external call found
    in the goal. *)
Ltac io_unfold :=
  unfold mbind, mret, IO_bind, IO_ret, throw, liftResult in *.

Ltac io_call c :=
  let r := fresh "r" in let e := fresh "e" in let w := fresh "w" in
  let H := fresh "Hcall" in
  destruct c as [[r|e] w] eqn:H.

(** ** Facts about the driver, for any graph *)

Section Driver.

Context {World : Type} (g : StateGraph World).

(** [invoke] is the loop from the entry node; with no super-step at all
    both make no step. *)
Lemma invoke_trace input limit w :
  trace (invoke g input limit w) =
  trace (superSteps g limit (entryPoint g) input w).
Proof. by destruct limit. Qed.

Lemma invoke_S input limit w :
  invoke g input (S limit) w = superSteps g (S limit) (entryPoint g) input w.
Proof. reflexivity. Qed.

Lemma invoke_outcome_Ok input limit w s' :
  outcome (invoke g input limit w) = Ok s' ->
  outcome (superSteps g limit (entryPoint g) input w) = Ok s'.
Proof. by destruct limit. Qed.

Lemma superSteps_length limit n s w :
  length (trace (superSteps g limit n s w)) <= limit.
Proof.
  revert n s w. induction limit as [|limit IH]; intros n s w; simpl; [lia|].
  destruct (nodes g n s w) as [[u|e] w']; simpl; [|lia].
  destruct (edges g n _) as [n'|]; simpl; [|lia].
  specialize (IH n' (applyUpdate (schema g) s u) w'). lia.
Qed.

Lemma superSteps_step limit n s w i st :
  trace (superSteps g limit n s w) !! i = Some st -> step_of_node g st.
Proof.
  revert n s w i. induction limit as [|limit IH]; intros n s w i; simpl; [done|].
  destruct (nodes g n s w) as [[u|e] w'] eqn:Hn; simpl.
  - destruct (edges g n _) as [n'|]; simpl.
    + destruct i as [|i]; simpl; [|by apply IH].
      intros [= <-]. exists w, w'; simpl. eauto.
    + destruct i as [|i]; simpl; [|done].
      intros [= <-]. exists w, w'; simpl. eauto.
  - destruct i as [|i]; simpl; [|done].
    intros [= <-]. by exists w, w'.
Qed.

(** Two steps in a row: the first one succeeded, the second one starts from
    the state the first one left, at the node the edge names. *)
Lemma superSteps_adjacent limit n s w i a b :
  trace (superSteps g limit n s w) !! i = Some a ->
  trace (superSteps g limit n s w) !! S i = Some b ->
  step_post a = Ok (step_pre b) /\
  edges g (step_node a) (step_pre b) = Goto (step_node b).
Proof.
  revert n s w i. induction limit as [|limit IH]; intros n s w i; simpl; [done|].
  destruct (nodes g n s w) as [[u|e] w'] eqn:Hn; simpl; [|by destruct i].
  destruct (edges g n _) as [n'|] eqn:He; simpl; [|by destruct i].
  destruct i as [|i]; simpl; [|by apply IH].
  intros [= <-]; simpl. destruct limit as [|limit]; simpl; [done|].
  destruct (nodes g n' _ w') as [[u'|e'] w''] eqn:Hn'; simpl.
  - destruct (edges g n' _) as [n''|]; simpl; by intros [= <-].
  - by intros [= <-].
Qed.

(** A property of (position, node, state) that every edge carries over
    holds where every step of the run is entered. *)
Lemma superSteps_invariant (I : nat -> Node -> AgentState -> Prop) :
  (forall k n s w u w' n',
      I k n s -> nodes g n s w = (Ok u, w') ->
      edges g n (applyUpdate (schema g) s u) = Goto n' ->
      I (S k) n' (applyUpdate (schema g) s u)) ->
  forall limit k n s w i st,
    I k n s ->
    trace (superSteps g limit n s w) !! i = Some st ->
    I (k + i) (step_node st) (step_pre st).
Proof.
  intros Hedge. induction limit as [|limit IH]; intros k n s w i st HI; simpl; [done|].
  destruct (nodes g n s w) as [[u|e] w'] eqn:Hn; simpl.
  - destruct (edges g n _) as [n'|] eqn:He; simpl.
    + destruct i as [|i]; simpl.
      * intros [= <-]; simpl. by rewrite Nat.add_0_r.
      * intros Hi. replace (k + S i) with (S k + i) by lia.
        eapply IH; [|exact Hi]. eauto.
    + destruct i as [|i]; simpl; [|done].
      intros [= <-]; simpl. by rewrite Nat.add_0_r.
  - destruct i as [|i]; simpl; [|done].
    intros [= <-]; simpl. by rewrite Nat.add_0_r.
Qed.

(** The same from any step of the run on: what holds where step [i] is
    entered and is carried over by every edge holds where every later step
    is entered. *)
Lemma superSteps_invariant_from (I : Node -> AgentState -> Prop) :
  (forall n s w u w' n',
      I n s -> nodes g n s w = (Ok u, w') ->
      edges g n (applyUpdate (schema g) s u) = Goto n' ->
      I n' (applyUpdate (schema g) s u)) ->
  forall limit n s w i j a b,
    i <= j ->
    trace (superSteps g limit n s w) !! i = Some a ->
    trace (superSteps g limit n s w) !! j = Some b ->
    I (step_node a) (step_pre a) -> I (step_node b) (step_pre b).
Proof.
  intros Hedge limit n s w i j a b Hij Ha Hb HI. revert b Hb.
  induction Hij as [|m Hle IH]; intros b Hb.
  - rewrite Ha in Hb. by injection Hb as <-.
  - destruct (lookup_lt_is_Some_2 (trace (superSteps g limit n s w)) m) as [c Hc].
    { apply lookup_lt_Some in Hb. lia. }
    specialize (IH c Hc).
    destruct (superSteps_adjacent _ _ _ _ _ _ _ Hc Hb) as [Hpost Hnext].
    destruct (superSteps_step _ _ _ _ _ _ Hc) as (w1 & w2 & Hnode).
    rewrite Hpost in Hnode. destruct Hnode as (u & Hnode & Hs').
    rewrite Hs' in Hnext |- *. eauto.
Qed.

(** A run that ends well ends on a step whose edge is [END]. *)
Lemma superSteps_outcome_Ok limit n s w s' :
  outcome (superSteps g limit n s w) = Ok s' ->
  exists st, last (trace (superSteps g limit n s w)) = Some st /\
             step_post st = Ok s' /\ edges g (step_node st) s' = END.
Proof.
  revert n s w. induction limit as [|limit IH]; intros n s w; simpl; [done|].
  destruct (nodes g n s w) as [[u|e] w'] eqn:Hn; simpl; [|done].
  destruct (edges g n _) as [n'|] eqn:He; simpl.
  - intros Ho. destruct (IH _ _ _ Ho) as (st & Hl & Hp & Hend).
    exists st. split; [|done].
    destruct (trace (superSteps g limit n' _ w')) as [|x l]; [done|].
    by rewrite last_cons, Hl.
  - destruct limit; [done|].
    intros [= <-]. eexists; split; [done|]. simpl. by rewrite He.
Qed.

(** A run that ends well has a super-step left after its last node. *)
Lemma superSteps_outcome_Ok_lt limit n s w s' :
  outcome (superSteps g limit n s w) = Ok s' ->
  length (trace (superSteps g limit n s w)) < limit.
Proof.
  revert n s w. induction limit as [|limit IH]; intros n s w; simpl; [done|].
  destruct (nodes g n s w) as [[u|e] w'] eqn:Hn; simpl; [|done].
  destruct (edges g n _) as [n'|] eqn:He; simpl.
  - intros Ho. specialize (IH _ _ _ Ho). lia.
  - destruct limit; [done|]. simpl. lia.
Qed.

End Driver.

(** ** Strings and schemas *)

Lemma append_nil_l (a : string) : "" +:+ a = a.
Proof. reflexivity. Qed.

Lemma append_cons (x : ascii) (a b : string) :
  String x a +:+ b = String x (a +:+ b).
Proof. reflexivity. Qed.

Lemma append_assoc (a b c : string) : (a +:+ b) +:+ c = a +:+ (b +:+ c).
Proof.
  induction a as [|x a IH]; [done|]. by rewrite !append_cons, IH.
Qed.

Lemma append_nil_r (a : string) : a +:+ "" = a.
Proof.
  induction a as [|x a IH]; [done|]. by rewrite append_cons, IH.
Qed.

Lemma occurs_in_refl (x : string) : occurs_in x x.
Proof. exists "", "". by rewrite append_nil_l, append_nil_r. Qed.

Lemma occurs_in_context (x s a b : string) :
  occurs_in x s -> occurs_in x (a +:+ s +:+ b).
Proof.
  intros (pre & post & ->). exists (a +:+ pre), (post +:+ b).
  by rewrite !append_assoc.
Qed.

Lemma occurs_in_l (x s b : string) : occurs_in x s -> occurs_in x (s +:+ b).
Proof. intros H. by apply (occurs_in_context x s "" b). Qed.

Lemma occurs_in_r (x s a : string) : occurs_in x s -> occurs_in x (a +:+ s).
Proof.
  intros H. apply (occurs_in_context x s a "") in H. by rewrite append_nil_r in H.
Qed.

Lemma occur_in_order_r (x y s p : string) :
  occur_in_order x y s -> occur_in_order x y (p +:+ s).
Proof.
  intros (a & b & c & ->). exists (p +:+ a), b, c. by rewrite !append_assoc.
Qed.

(** Every element of a joined array occurs in the joined string. *)
Lemma Array_join_occurs (sep : string) (l : list string) (i : nat) (x : string) :
  l !! i = Some x -> occurs_in x (Array_join sep l).
Proof.
  revert i. induction l as [|y l IH]; intros i; [done|].
  destruct i as [|i]; simpl.
  - intros [= ->]. destruct l; [apply occurs_in_refl|].
    apply occurs_in_l, occurs_in_refl.
  - intros Hi. destruct l as [|z l]; [done|].
    apply occurs_in_r, occurs_in_r. by eapply IH.
Qed.

(** And they occur in the order of the array. *)
Lemma Array_join_occurs_ordered (sep : string) (l : list string) (i j : nat)
    (x y : string) :
  i < j -> l !! i = Some x -> l !! j = Some y ->
  occur_in_order x y (Array_join sep l).
Proof.
  revert i j. induction l as [|z l IH]; intros i j Hij; [done|].
  destruct j as [|j]; [lia|]. destruct i as [|i]; simpl.
  - intros [= ->] Hj. destruct l as [|z' l]; [done|].
    destruct (Array_join_occurs sep (z' :: l) j y Hj) as (pre & post & ->).
    exists "", (sep +:+ pre), post. by rewrite append_nil_l, !append_assoc.
  - intros Hi Hj. destruct l as [|z' l]; [done|].
    destruct (IH i j ltac:(lia) Hi Hj) as (a & b & c & ->).
    exists (z +:+ sep +:+ a), b, c. by rewrite !append_assoc.
Qed.

(** [mapM] over a list of written values reads the values back. *)
Lemma mapM_Result_fmap {A B} (f : A -> Result B) (g : B -> A) (l : list B) :
  (forall x, f (g x) = Ok x) -> mapM f (g <$> l) = Ok l.
Proof.
  intros Hfg. induction l as [|x l IH]; [done|].
  rewrite fmap_cons. cbn. rewrite Hfg. cbn. rewrite IH. done.
Qed.

Lemma z_array_string_to_json (l : list string) :
  z_array z_string (Some (JArray (JString <$> l))) = Ok l.
Proof. by apply mapM_Result_fmap. Qed.

(** An array of strings is read exactly from an array of JSON strings. *)
Lemma mapM_z_string_inv (items : list Json) (ks : list string) :
  mapM (fun j => z_string (Some j)) items = Ok ks <-> items = JString <$> ks.
Proof.
  split; [|intros ->; by apply mapM_Result_fmap].
  revert ks. induction items as [|j items IH]; intros ks; cbn.
  - by intros [= <-].
  - destruct j; cbn; try done.
    destruct (mapM _ items) as [ks'|e] eqn:Hks; cbn; [|done].
    intros [= <-]. by rewrite (IH ks' eq_refl).
Qed.

(** [mapM] reads a list element by element. *)
Lemma mapM_Result_Forall2 {A} (f : Json -> Result A) (items : list Json)
    (out : list A) :
  mapM f items = Ok out <-> Forall2 (fun j a => f j = Ok a) items out.
Proof.
  split.
  - revert out. induction items as [|j items IH]; intros out; cbn.
    + intros [= <-]. constructor.
    + destruct (f j) as [a|] eqn:Hj; cbn; [|done].
      destruct (mapM f items) as [l|] eqn:Hl; cbn; [|done].
      intros [= <-]. constructor; [done|]. by apply IH.
  - induction 1 as [|j a items out Hj _ IH]; cbn; [done|].
    rewrite Hj. cbn. rewrite IH. done.
Qed.

(** The schemas read exactly the values written as they require. *)
Lemma RoleSchema_written (j : Json) (r : Role) :
  RoleSchema (Some j) = Ok r <-> role_written j r.
Proof.
  unfold role_written. split.
  - destruct j; cbn; try done.
    destruct (obj_get fields "name") as [[]|] eqn:Hn; cbn; try done.
    destruct (obj_get fields "description") as [[]|] eqn:Hd; cbn; try done.
    destruct (obj_get fields "keySkills") as [[]|] eqn:Hk; cbn; try done.
    destruct (mapM _ items) as [ks|] eqn:Hks; cbn; [|done].
    intros [= <-]. apply mapM_z_string_inv in Hks as ->.
    exists fields. by rewrite Hn, Hd, Hk.
  - intros (fields & -> & Hn & Hd & Hk). destruct r as [n d k]; cbn in *.
    rewrite Hn, Hd, Hk. cbn.
    pose proof (mapM_Result_fmap (fun j => z_string (Some j)) JString k
                  (fun _ => eq_refl)) as Hks.
    cbn in Hks. by rewrite Hks.
Qed.

Lemma TaskSchema_written (j : Json) (t : Task) :
  TaskSchema (Some j) = Ok t <-> task_written j t.
Proof.
  unfold task_written. split.
  - destruct j; cbn -[RoleSchema]; try done.
    destruct (obj_get fields "description") as [[]|] eqn:Hd;
      cbn -[RoleSchema]; try done.
    destruct (obj_get fields "role") as [jr|] eqn:Hrole; cbn -[RoleSchema].
    + destruct (RoleSchema (Some jr)) as [r|] eqn:Hr; cbn; [|done].
      intros [= <-]. exists fields. rewrite Hd, Hrole.
      apply RoleSchema_written in Hr. eauto.
    + intros [= <-]. exists fields. by rewrite Hd, Hrole.
  - intros (fields & -> & Hd & Hrole). destruct t as [d ro]; cbn -[RoleSchema] in *.
    rewrite Hd. cbn -[RoleSchema].
    destruct (obj_get fields "role") as [jr|]; cbn -[RoleSchema].
    + destruct Hrole as (r & -> & Hr). apply RoleSchema_written in Hr.
      by rewrite Hr.
    + by rewrite Hrole.
Qed.

Lemma TasksWithRolesSchema_written (j : Json) (out : list Task) :
  TasksWithRolesSchema (Some j) = Ok out <->
  exists fields items,
    j = JObject fields /\ obj_get fields "tasks" = Some (JArray items) /\
    Forall2 task_written items out.
Proof.
  split.
  - destruct j; cbn -[TaskSchema mapM]; try done.
    destruct (obj_get fields "tasks") as [[]|] eqn:Ht; cbn -[TaskSchema mapM];
      try done.
    intros Hm. apply mapM_Result_Forall2 in Hm.
    exists fields, items. split; [done|]. split; [done|].
    eapply Forall2_impl; [exact Hm|]. intros item t. apply TaskSchema_written.
  - intros (fields & items & -> & Ht & Hall). cbn -[TaskSchema mapM].
    rewrite Ht. cbn -[TaskSchema mapM]. apply mapM_Result_Forall2.
    eapply Forall2_impl; [exact Hall|]. intros item t. apply TaskSchema_written.
Qed.

(** The three schemas accept what their types are written as. *)
Lemma RoleSchema_to_json (r : Role) : RoleSchema (Some (Role_to_json r)) = Ok r.
Proof.
  destruct r as [n d k].
  cbv -[z_array z_string fmap]. by rewrite z_array_string_to_json.
Qed.

Lemma TaskSchema_to_json (t : Task) : TaskSchema (Some (Task_to_json t)) = Ok t.
Proof.
  destruct t as [d [r|]]; [|done].
  cbv -[RoleSchema Role_to_json]. by rewrite RoleSchema_to_json.
Qed.

Lemma TasksWithRolesSchema_to_json (ts : list Task) :
  TasksWithRolesSchema (Some (TasksWithRoles_to_json ts)) = Ok ts.
Proof.
  cbv -[mapM TaskSchema Task_to_json fmap].
  apply (mapM_Result_fmap (fun j => TaskSchema (Some j))), TaskSchema_to_json.
Qed.

(** ** The components *)

Section Components.

Context {World : Type}.
Variable queryDecomposer_run : string -> IO World (list string).
Variable llm_invoke : list Message -> IO World string.
Variable parse_json_markdown : string -> option Json.
Variable baseAgent_invoke : list Message -> IO World (list Message).

Abbreviation RoleAssigner_run := (RoleAssigner_run llm_invoke parse_json_markdown).
Abbreviation Executor_run := (Executor_run baseAgent_invoke).
Abbreviation Reporter_run := (Reporter_run llm_invoke).

(** [RoleAssigner.run] is the model's reply read by the parser. *)
Lemma RoleAssigner_run_eq (tasks : list Task) (w : World) :
  RoleAssigner_run tasks w =
  match llm_invoke (RoleAssigner_prompt tasks) w with
  | (Ok text, w') =>
      (StructuredOutputParser parse_json_markdown TasksWithRolesSchema text, w')
  | (Err e, w') => (Err e, w')
  end.
Proof.
  unfold RoleAssigner_run. io_unfold.
  io_call (llm_invoke (RoleAssigner_prompt tasks) w); [|done].
  by destruct (StructuredOutputParser _ _ _).
Qed.

(** C6. [RoleAssigner.run] returns the task list the parser read from the
    model's structured reply as it is: whatever list [parsed] the schema
    yields, of any length and in any order, related or not to the input
    [tasks], is the result. *)
Theorem RoleAssigner_run_verbatim (tasks : list Task) (w w' : World)
    (text : string) (j : Json) (parsed : list Task) :
  llm_invoke (RoleAssigner_prompt tasks) w = (Ok text, w') ->
  parse_json_markdown text = Some j ->
  TasksWithRolesSchema (Some j) = Ok parsed ->
  RoleAssigner_run tasks w = (Ok parsed, w').
Proof.
  intros Hllm Hjson Hschema. rewrite RoleAssigner_run_eq, Hllm.
  unfold StructuredOutputParser. by rewrite Hjson, Hschema.
Qed.

(** C3, as the code has it.  After [RoleAssigner.run] completes, the tasks
    are the list the schema read from the model's reply, and the schema
    reads exactly what is written as it requires: an object whose [tasks]
    is an array of objects, each with a string [description] and either no
    [role] or a role with a string [name], a string [description] and an
    array of strings [keySkills].  So it reads back every task list written
    in its format: a task with no role and a role with any number of key
    skills are accepted.  Three skills are asked for in the prompt only. *)
Theorem RoleAssigner_run_schema (tasks : list Task) (w w' : World)
    (text : string) :
  llm_invoke (RoleAssigner_prompt tasks) w = (Ok text, w') ->
  (forall out : list Task,
      parse_json_markdown text = Some (TasksWithRoles_to_json out) ->
      RoleAssigner_run tasks w = (Ok out, w')) /\
  (forall out : list Task,
      RoleAssigner_run tasks w = (Ok out, w') ->
      exists j, parse_json_markdown text = Some j /\
                TasksWithRolesSchema (Some j) = Ok out) /\
  (forall out : list Task,
      RoleAssigner_run tasks w = (Ok out, w') <->
      exists fields items,
        parse_json_markdown text = Some (JObject fields) /\
        obj_get fields "tasks" = Some (JArray items) /\
        Forall2 task_written items out).
Proof.
  intros Hllm. rewrite RoleAssigner_run_eq, Hllm.
  unfold StructuredOutputParser. split; [|split]; intros out.
  - intros ->. by rewrite TasksWithRolesSchema_to_json.
  - destruct (parse_json_markdown text) as [j|]; [|done].
    intros [= H]. eauto.
  - destruct (parse_json_markdown text) as [j|]; [|split].
    + split.
      * intros [= H]. apply TasksWithRolesSchema_written in H
          as (fields & items & -> & Ht & Hall). eauto.
      * intros (fields & items & [= ->] & Ht & Hall).
        f_equal. apply TasksWithRolesSchema_written. eauto.
    + done.
    + by intros (fields & items & [=] & _).
Qed.

(** C7. With the role populated, [Executor.run] reads the role's name,
    description and key skills without failing: it is the agent called on
    the persona messages, followed by the read of the last message.  With
    the role missing nothing guards the read: the same task without its
    role throws a [TypeError] before the agent is called. *)
Theorem Executor_run_role_precondition (t : Task) (r : Role) (w : World) :
  Task.role t = Some r ->
  Executor_run (Some t) w =
    (messages ← baseAgent_invoke (Executor_messages r (Task.description t));
     last_content messages) w /\
  Executor_run (Some (Task.mk (Task.description t) None)) w =
    (Err (TypeError "Cannot read properties of undefined (reading 'name')"), w).
Proof.
  intros Hrole. split; [|done].
  unfold Executor_run. by rewrite Hrole.
Qed.

(** C8. [Reporter.run] makes one model call, on one prompt whose human
    message holds the query and, for every result, the result under the
    label [Info i+1] of its 0-based position [i]; the labelled results
    stand in the order of the list. *)
Theorem Reporter_run_prompt (query : string) (results : list string) (w : World) :
  Reporter_run query results w = llm_invoke (Reporter_prompt query results) w /\
  exists human,
    Reporter_prompt query results =
      [mkMessage "system" Reporter_system; mkMessage "human" human] /\
    occurs_in query human /\
    (forall i r, results !! i = Some r ->
       occurs_in ("Info " +:+ pretty (i + 1) +:+ ":" +:+ LF +:+ r) human) /\
    (forall i j ri rj, i < j -> results !! i = Some ri -> results !! j = Some rj ->
       occur_in_order ("Info " +:+ pretty (i + 1) +:+ ":" +:+ LF +:+ ri)
                      ("Info " +:+ pretty (j + 1) +:+ ":" +:+ LF +:+ rj) human).
Proof.
  split.
  - unfold Reporter_run, StringOutputParser. io_unfold.
    by io_call (llm_invoke (Reporter_prompt query results) w).
  - eexists. split; [reflexivity|]. unfold Reporter_human.
    split; [|split].
    + do 18 apply occurs_in_r. apply occurs_in_l, occurs_in_refl.
    + intros i r Hi. do 23 apply occurs_in_r.
      apply (Array_join_occurs _ _ i). rewrite list_lookup_imap, Hi. done.
    + intros i j ri rj Hij Hi Hj. do 23 apply occur_in_order_r.
      apply (Array_join_occurs_ordered _ _ i j); [done| |].
      * by rewrite list_lookup_imap, Hi.
      * by rewrite list_lookup_imap, Hj.
Qed.

End Components.

(** ** The runs of the workflow *)

Section Runs.

Context {World : Type}.
Variable queryDecomposer_run : string -> IO World (list string).
Variable llm_invoke : list Message -> IO World string.
Variable parse_json_markdown : string -> option Json.
Variable baseAgent_invoke : list Message -> IO World (list Message).

Abbreviation wf channels :=
  (workflow queryDecomposer_run llm_invoke parse_json_markdown
     baseAgent_invoke channels).
Abbreviation G :=
  (createGraph queryDecomposer_run llm_invoke parse_json_markdown
     baseAgent_invoke).

(** *** What each node returns *)

Lemma planTasks_Ok s w u w' :
  planTasks queryDecomposer_run s w = (Ok u, w') ->
  exists ts, u = mkPartial None (Some ts) None None None.
Proof.
  unfold planTasks, Planner_run. io_unfold.
  io_call (queryDecomposer_run (query s) w); [|done].
  intros [= <- <-]. eauto.
Qed.

Lemma assignRoles_Ok s w u w' :
  assignRoles llm_invoke parse_json_markdown s w = (Ok u, w') ->
  exists ts, u = mkPartial None (Some ts) None None None.
Proof.
  unfold assignRoles, RoleAssigner_run. io_unfold.
  io_call (llm_invoke (RoleAssigner_prompt (tasks s)) w); [|done].
  destruct (StructuredOutputParser _ _ _); [|done].
  intros [= <- <-]. eauto.
Qed.

Lemma executeTask_Ok s w u w' :
  executeTask baseAgent_invoke s w = (Ok u, w') ->
  exists t r result,
    tasks s !! currentTaskIndex s = Some t /\ Task.role t = Some r /\
    u = mkPartial None None (Some (currentTaskIndex s + 1)) (Some [result]) None.
Proof.
  unfold executeTask, Executor_run.
  destruct (tasks s !! currentTaskIndex s) as [t|]; [|done].
  destruct (Task.role t) as [r|] eqn:Hr; [|done]. io_unfold.
  io_call (baseAgent_invoke (Executor_messages r (Task.description t)) w); [|done].
  unfold last_content. destruct (last _); [|done].
  intros [= <- <-]. eauto 10.
Qed.

Lemma executeTask_no_task s w :
  tasks s !! currentTaskIndex s = None ->
  executeTask baseAgent_invoke s w =
    (Err (TypeError "Cannot read properties of undefined (reading 'role')"), w).
Proof. unfold executeTask, Executor_run. by intros ->. Qed.

Lemma generateReport_Ok s w u w' :
  generateReport llm_invoke s w = (Ok u, w') ->
  exists report, u = mkPartial None None None None (Some report).
Proof.
  unfold generateReport, Reporter_run, StringOutputParser. io_unfold.
  io_call (llm_invoke (Reporter_prompt (query s) (results s)) w); [|done].
  intros [= <- <-]. eauto.
Qed.

(** Split on the node and replace its update by what the node returns. *)
Ltac node_cases n H :=
  destruct n; simpl in H;
  [ apply planTasks_Ok in H as [? ->]
  | apply assignRoles_Ok in H as [? ->]
  | apply executeTask_Ok in H as (? & ? & ? & ? & ? & ->)
  | apply generateReport_Ok in H as [? ->] ].

(** C9. Every node returns a partial update, and a field the update does
    not name keeps its value.  The planner and the role assigner name
    [tasks] only, the executor names [results] and [currentTaskIndex] only,
    the reporter names [finalReport] only; [query] is never changed. *)
Theorem node_update_frame (n : Node) (s : AgentState) (w w' : World)
    (u : PartialAgentState) :
  nodes G n s w = (Ok u, w') ->
  let s' := applyUpdate (schema G) s u in
  ((upd_query u = None -> query s' = query s) /\
   (upd_tasks u = None -> tasks s' = tasks s) /\
   (upd_currentTaskIndex u = None -> currentTaskIndex s' = currentTaskIndex s) /\
   (upd_results u = None -> results s' = results s) /\
   (upd_finalReport u = None -> finalReport s' = finalReport s)) /\
  query s' = query s /\
  match n with
  | planner | roleAssigner =>
      is_Some (upd_tasks u) /\
      currentTaskIndex s' = currentTaskIndex s /\ results s' = results s /\
      finalReport s' = finalReport s
  | executor =>
      is_Some (upd_results u) /\ is_Some (upd_currentTaskIndex u) /\
      tasks s' = tasks s /\ finalReport s' = finalReport s
  | reporter =>
      is_Some (upd_finalReport u) /\
      tasks s' = tasks s /\ currentTaskIndex s' = currentTaskIndex s /\
      results s' = results s
  end.
Proof.
  intros Hnode s'. split.
  - subst s'. unfold applyUpdate; simpl.
    repeat split; intros ->; reflexivity.
  - subst s'. node_cases n Hnode; simpl; eauto 10.
Qed.

Lemma Inv_edge k n s w u w' n' :
  Inv k n s -> nodes G n s w = (Ok u, w') ->
  edges G n (applyUpdate (schema G) s u) = Goto n' ->
  Inv (S k) n' (applyUpdate (schema G) s u).
Proof.
  intros HI Hnode. node_cases n Hnode; simpl in *.
  - intros [= <-]; simpl. by destruct HI as (-> & ? & ?).
  - intros [= <-]; simpl. destruct HI as (-> & -> & ->). simpl.
    repeat split; (done || lia).
  - destruct HI as (-> & Hle & Hres).
    match goal with H : tasks s !! _ = Some _ |- _ => apply lookup_lt_Some in H end.
    destruct (Nat.ltb _ _) eqn:Hlt; intros [= <-]; simpl.
    + apply Nat.ltb_lt in Hlt. repeat split; (done || lia).
    + apply Nat.ltb_ge in Hlt. repeat split; (done || lia).
  - done.
Qed.

Lemma run_Inv limit q w i st :
  trace (invoke G (initialState q) limit w) !! i = Some st ->
  Inv i (step_node st) (step_pre st).
Proof.
  intros Hi. rewrite invoke_trace in Hi.
  apply (superSteps_invariant G Inv Inv_edge _ 0) in Hi; [done|]. by simpl.
Qed.

(** What [run] returns is the report of the final state. *)
Lemma run_outcome q w :
  (run queryDecomposer_run llm_invoke parse_json_markdown baseAgent_invoke q w).1 =
  finalReport <$> outcome (invoke G (initialState q) recursionLimit w).
Proof. reflexivity. Qed.

(** The index is fixed by the position of the step, and never passes the
    number of tasks. *)
Lemma Inv_index k n s :
  Inv k n s ->
  currentTaskIndex s = k - 2 /\ currentTaskIndex s <= length (tasks s).
Proof. destruct n; simpl; intros (-> & H1 & H2); lia. Qed.

(** Where the run goes after an executor pass. *)
Lemma executor_next limit q w i a b :
  trace (invoke G (initialState q) limit w) !! i = Some a ->
  trace (invoke G (initialState q) limit w) !! S i = Some b ->
  step_node a = executor ->
  step_post a = Ok (step_pre b) /\
  ((step_node b = reporter /\
    currentTaskIndex (step_pre b) = length (tasks (step_pre b))) \/
   (step_node b = executor /\
    currentTaskIndex (step_pre b) < length (tasks (step_pre b)))).
Proof.
  intros Ha Hb Hn. pose proof (run_Inv _ _ _ _ _ Hb) as HI.
  rewrite invoke_trace in Ha, Hb.
  destruct (superSteps_adjacent G _ _ _ _ _ _ _ Ha Hb) as [Hpost Hedge].
  split; [done|]. rewrite Hn in Hedge. simpl in Hedge.
  destruct (Nat.ltb _ _) eqn:Hlt; injection Hedge as Hnb; rewrite <- Hnb in *.
  - right. apply Nat.ltb_lt in Hlt. done.
  - left. simpl in HI. split; [done|]. lia.
Qed.

(** C4. After an executor pass the run goes to the reporter exactly when
    the index has reached the number of tasks, and back to the executor
    exactly when the index is still below it: the reporter is never
    entered early and no pass is made past the last task. *)
Theorem executor_to_reporter_iff limit q w i a b :
  trace (invoke G (initialState q) limit w) !! i = Some a ->
  trace (invoke G (initialState q) limit w) !! S i = Some b ->
  step_node a = executor ->
  step_post a = Ok (step_pre b) /\
  (step_node b = reporter <->
     currentTaskIndex (step_pre b) = length (tasks (step_pre b))) /\
  (step_node b = executor <->
     currentTaskIndex (step_pre b) < length (tasks (step_pre b))).
Proof.
  intros Ha Hb Hn.
  destruct (executor_next _ _ _ _ _ _ Ha Hb Hn) as [Hpost [[Hnb Hidx]|[Hnb Hidx]]];
    (split; [done|]); rewrite Hnb; split; split; (done || lia).
Qed.

(** What a completed step does to the index. *)
Lemma step_index limit q w i st s' :
  trace (invoke G (initialState q) limit w) !! i = Some st ->
  step_post st = Ok s' ->
  currentTaskIndex (step_pre st) <= currentTaskIndex s' /\
  currentTaskIndex s' <= length (tasks s').
Proof.
  intros Hi Hpost. pose proof (run_Inv _ _ _ _ _ Hi) as HI.
  rewrite invoke_trace in Hi.
  destruct (superSteps_step G _ _ _ _ _ _ Hi) as (w1 & w2 & Hnode).
  rewrite Hpost in Hnode. destruct Hnode as (u & Hnode & ->).
  destruct st as [n s post]; simpl in *.
  node_cases n Hnode; simpl in *;
    try match goal with H : tasks s !! _ = Some _ |- _ => apply lookup_lt_Some in H end;
    lia.
Qed.

(** C5. Along a run the index never decreases, neither from a step to a
    later step nor across a step, and it never passes the number of tasks;
    the executor loop is left for the reporter exactly when the index
    equals the number of tasks. *)
Theorem currentTaskIndex_monotone_bounded limit q w i j a b :
  i <= j ->
  trace (invoke G (initialState q) limit w) !! i = Some a ->
  trace (invoke G (initialState q) limit w) !! j = Some b ->
  currentTaskIndex (step_pre a) <= currentTaskIndex (step_pre b) /\
  currentTaskIndex (step_pre b) <= length (tasks (step_pre b)) /\
  (forall s', step_post b = Ok s' ->
     currentTaskIndex (step_pre b) <= currentTaskIndex s' /\
     currentTaskIndex s' <= length (tasks s')) /\
  (step_node a = executor -> j = S i ->
     (step_node b = reporter <->
        currentTaskIndex (step_pre b) = length (tasks (step_pre b)))).
Proof.
  intros Hij Ha Hb.
  destruct (Inv_index _ _ _ (run_Inv _ _ _ _ _ Ha)) as [Hia Hla].
  destruct (Inv_index _ _ _ (run_Inv _ _ _ _ _ Hb)) as [Hib Hlb].
  split; [lia|]. split; [done|]. split.
  - intros s' Hpost. by eapply step_index.
  - intros Hn ->.
    destruct (executor_next _ _ _ _ _ _ Ha Hb Hn) as [_ [[Hnb Hidx]|[Hnb Hidx]]];
      rewrite Hnb; split; (done || lia).
Qed.

(** Once the role assigner is done the task list stays as it is, and only
    the executor and the reporter are entered. *)
Lemma tasks_fixed_after_roleAssigner limit q w a p st :
  trace (invoke G (initialState q) limit w) !! 1 = Some a ->
  2 <= p ->
  trace (invoke G (initialState q) limit w) !! p = Some st ->
  exists s2, step_post a = Ok s2 /\ tasks (step_pre st) = tasks s2.
Proof.
  intros Ha Hp Hst.
  destruct (lookup_lt_is_Some_2 (trace (invoke G (initialState q) limit w)) 2)
    as [b Hb].
  { apply lookup_lt_Some in Hst. lia. }
  pose proof (run_Inv _ _ _ _ _ Ha) as HIa.
  rewrite invoke_trace in Ha, Hb, Hst.
  destruct (superSteps_adjacent G _ _ _ _ _ _ _ Ha Hb) as [Hpost Hedge].
  exists (step_pre b). split; [done|].
  assert (step_node a = roleAssigner) as Hna.
  { destruct (step_node a); simpl in HIa; [lia|done|lia|lia]. }
  rewrite Hna in Hedge. simpl in Hedge. injection Hedge as Hnb.
  apply (superSteps_invariant_from G
           (fun n s => tasks s = tasks (step_pre b) /\
                       (n = executor \/ n = reporter)))
    with (limit := limit) (n := planner) (s := initialState q) (w := w)
         (i := 2) (j := p) (a := b) (b := st); [|done|done|done|by auto].
  clear. intros n s w u w' n' [Ht Hn] Hnode Hedge.
  destruct Hn as [-> | ->]; simpl in *.
  - apply executeTask_Ok in Hnode as (? & ? & ? & ? & ? & ->). simpl.
    split; [done|]. destruct (Nat.ltb _ _); injection Hedge as <-; auto.
  - done.
Qed.

(** C10, as the code has it.  A run makes at most [recursionLimit]
    super-steps, whatever the limit passed to [invoke]; [run] passes 1000.
    The tasks that count are the ones the role assigner leaves.  A run on
    [n] such tasks enters [n + 3] nodes and needs one super-step more to
    end well: under a limit below [n + 4] it ends with an error and [run]
    returns no report, and under a limit below [n + 3] the reporter is
    never entered. *)
Theorem recursion_limit_abort limit q w :
  length (trace (invoke G (initialState q) limit w)) <= limit /\
  (forall a s2,
      trace (invoke G (initialState q) limit w) !! 1 = Some a ->
      step_post a = Ok s2 ->
      limit < length (tasks s2) + 4 ->
      (exists e, outcome (invoke G (initialState q) limit w) = Err e) /\
      (limit = recursionLimit ->
       exists e,
         (run queryDecomposer_run llm_invoke parse_json_markdown baseAgent_invoke
            q w).1 = Err e) /\
      (limit < length (tasks s2) + 3 ->
       forall p st, trace (invoke G (initialState q) limit w) !! p = Some st ->
                    step_node st <> reporter)).
Proof.
  pose proof (superSteps_length G limit (entryPoint G) (initialState q) w) as Hlen.
  rewrite <- invoke_trace in Hlen.
  split; [done|]. intros a s2 Ha Hpost Hlimit.
  assert (forall p st,
             trace (invoke G (initialState q) limit w) !! p = Some st ->
             step_node st = reporter -> p = length (tasks s2) + 2) as Hreporter.
  { intros p st Hst Hn. pose proof (run_Inv _ _ _ _ _ Hst) as HI.
    rewrite Hn in HI. simpl in HI. destruct HI as (Hp & Hidx & Hpos & _).
    destruct (tasks_fixed_after_roleAssigner _ _ _ _ p _ Ha ltac:(lia) Hst)
      as (s2' & Heq & Ht).
    rewrite Hpost in Heq. injection Heq as <-.
    rewrite Ht in Hidx. lia. }
  assert (exists e, outcome (invoke G (initialState q) limit w) = Err e) as Herr.
  { destruct (outcome _) as [s'|e] eqn:Ho; [|by eauto]. exfalso.
    apply invoke_outcome_Ok in Ho.
    pose proof (superSteps_outcome_Ok_lt G _ _ _ _ _ Ho) as Hlt.
    apply superSteps_outcome_Ok in Ho as (st & Hlast & _ & Hend).
    rewrite last_lookup, <- invoke_trace in Hlast.
    rewrite <- invoke_trace in Hlt.
    assert (step_node st = reporter) as Hn.
    { destruct (step_node st); simpl in Hend; try done. by destruct (Nat.ltb _ _). }
    pose proof (Hreporter _ _ Hlast Hn) as Hp.
    apply lookup_lt_Some in Hlast. lia. }
  split; [done|]. split.
  - intros ->. destruct Herr as [e He]. exists e.
    by rewrite run_outcome, He.
  - intros Hshort p st Hst Hn.
    pose proof (Hreporter _ _ Hst Hn) as Hp.
    apply lookup_lt_Some in Hst. lia.
Qed.

(** *** What the state's channels make of the executor's update *)

(** The executor's update names the result [Executor.run] returned. *)
Lemma executeTask_Ok_result s w u w' :
  executeTask baseAgent_invoke s w = (Ok u, w') ->
  exists result,
    Executor_run baseAgent_invoke (tasks s !! currentTaskIndex s) w =
      (Ok result, w') /\
    u = mkPartial None None (Some (currentTaskIndex s + 1)) (Some [result]) None.
Proof.
  unfold executeTask. io_unfold.
  io_call (Executor_run baseAgent_invoke (tasks s !! currentTaskIndex s) w); [|done].
  intros [= <- <-]. eauto.
Qed.

(** X14. Every completed executor pass moves the index on by one and leaves a
    [results] of one element, the string [Executor.run] returned for the
    task at the index of that pass: the channel has no reducer, so the
    one-element list written replaces what was there. *)
Lemma executor_pass_overwrites_results limit q w i st s' :
  trace (invoke G (initialState q) limit w) !! i = Some st ->
  step_node st = executor ->
  step_post st = Ok s' ->
  i = currentTaskIndex (step_pre st) + 2 /\
  currentTaskIndex s' = currentTaskIndex (step_pre st) + 1 /\
  (exists w1 w2 result,
      Executor_run baseAgent_invoke
        (tasks (step_pre st) !! currentTaskIndex (step_pre st)) w1 =
        (Ok result, w2) /\
      results s' = [result]) /\
  tasks s' = tasks (step_pre st).
Proof.
  intros Hi Hn Hpost. pose proof (run_Inv _ _ _ _ _ Hi) as HI.
  rewrite invoke_trace in Hi.
  destruct (superSteps_step G _ _ _ _ _ _ Hi) as (w1 & w2 & Hnode).
  rewrite Hpost in Hnode. destruct Hnode as (u & Hnode & ->).
  rewrite Hn in *. simpl in *.
  apply executeTask_Ok_result in Hnode as (result & Hrun & ->). simpl.
  destruct HI as (-> & _). eauto 10.
Qed.

(** X15. So the reporter, whenever it is entered, reads one result, whatever
    the number of tasks. *)
Lemma reporter_reads_one_result limit q w i st :
  trace (invoke G (initialState q) limit w) !! i = Some st ->
  step_node st = reporter ->
  length (results (step_pre st)) = 1 /\
  currentTaskIndex (step_pre st) = length (tasks (step_pre st)) /\
  0 < length (tasks (step_pre st)).
Proof.
  intros Hi Hn. pose proof (run_Inv _ _ _ _ _ Hi) as HI.
  rewrite Hn in HI. simpl in HI. destruct HI as (_ & Hidx & Hpos & Hres).
  split; [done|]. split; [done|]. lia.
Qed.

(** With a concatenating reducer declared on [results], the same nodes and
    edges keep one result per pass: the length of [results] is the index
    wherever a step is entered. *)
Lemma results_reducer_keeps_all limit q w i st :
  trace (invoke (wf accumulating) (initialState q) limit w) !! i = Some st ->
  length (results (step_pre st)) = currentTaskIndex (step_pre st).
Proof.
  intros Hi. rewrite invoke_trace in Hi.
  apply (superSteps_invariant (wf accumulating)
           (fun _ _ s => length (results s) = currentTaskIndex s)) with (k := 0)
    in Hi; [done| |done].
  clear. intros _ n s w u w' n' HI Hnode _.
  node_cases n Hnode; simpl; try done.
  rewrite length_app. simpl. lia.
Qed.

(** *** The first executor pass *)

Lemma superSteps_S (g : StateGraph World) limit n s w :
  superSteps g (S limit) n s w =
  match nodes g n s w with
  | (Err e, w') => mkRun [mkStep n s (Err e)] (Err e) w'
  | (Ok u, w') =>
      let s' := applyUpdate (schema g) s u in
      match edges g n s' with
      | END =>
          mkRun [mkStep n s (Ok s')]
            (match limit with
             | 0 => Err GraphRecursionError
             | S _ => Ok s'
             end) w'
      | Goto n' =>
          let r := superSteps g limit n' s' w' in
          mkRun (mkStep n s (Ok s') :: trace r) (outcome r) (world_after r)
      end
  end.
Proof. reflexivity. Qed.

(** X16. The edge from the role assigner to the executor is unconditional.  When
    the role assigner leaves an empty task list the executor is entered all
    the same, reads [tasks[0]], which is [undefined], and throws; the run
    ends there, before the reporter. *)
Lemma empty_tasks_TypeError limit q w a s2 :
  trace (invoke G (initialState q) limit w) !! 1 = Some a ->
  step_post a = Ok s2 ->
  tasks s2 = [] ->
  3 <= limit ->
  let e := TypeError "Cannot read properties of undefined (reading 'role')" in
  trace (invoke G (initialState q) limit w) !! 2 = Some (mkStep executor s2 (Err e)) /\
  length (trace (invoke G (initialState q) limit w)) = 3 /\
  outcome (invoke G (initialState q) limit w) = Err e.
Proof.
  intros Ha Hpost Htasks Hlimit e.
  destruct limit as [|[|[|limit]]]; try lia. clear Hlimit.
  rewrite invoke_S in *. rewrite superSteps_S in *. simpl entryPoint in *.
  destruct (nodes G planner (initialState q) w) as [[u0|e0] w0]; [|done].
  cbv zeta in *. simpl edges in *. cbv iota in *.
  rewrite (superSteps_S G (S limit)) in *.
  destruct (nodes G roleAssigner _ w0) as [[u1|e1] w1];
    [|simpl in Ha; injection Ha as <-; done].
  cbv zeta in *. simpl edges in *. cbv iota in *.
  simpl in Ha. injection Ha as <-. simpl in Hpost. injection Hpost as Hs2.
  simpl schema. rewrite Hs2.
  rewrite (superSteps_S G limit). simpl nodes.
  rewrite executeTask_no_task; [done|]. by rewrite Htasks.
Qed.

End Runs.

(** ** The workflow on concrete inputs *)

(** The five steps of the two-task run. *)
Lemma two_task_run_trace :
  trace Stub.two_task_run =
    [ Stub.plan Stub.two Stub.compare;
      Stub.assign Stub.two Stub.two_assigned Stub.compare;
      Stub.pass Stub.two_assigned Stub.compare 0;
      Stub.pass Stub.two_assigned Stub.compare 1;
      Stub.report Stub.two_assigned Stub.compare 2 ].
Proof. vm_compute. reflexivity. Qed.

Lemma two_task_run_pass1 :
  trace Stub.two_task_run !! 2 = Some (Stub.pass Stub.two_assigned Stub.compare 0).
Proof. by rewrite two_task_run_trace. Qed.

Lemma two_task_run_pass2 :
  trace Stub.two_task_run !! 3 = Some (Stub.pass Stub.two_assigned Stub.compare 1).
Proof. by rewrite two_task_run_trace. Qed.

Lemma two_task_run_report :
  trace Stub.two_task_run !! 4 = Some (Stub.report Stub.two_assigned Stub.compare 2).
Proof. by rewrite two_task_run_trace. Qed.

Lemma two_task_run_outcome :
  outcome Stub.two_task_run = Ok (Stub.reported Stub.two_assigned Stub.compare 2).
Proof. vm_compute. reflexivity. Qed.

(** Under a limit of four the run stops after the second pass. *)
Lemma capped_run_trace :
  trace Stub.capped_run =
    [ Stub.plan Stub.two Stub.compare;
      Stub.assign Stub.two Stub.two_assigned Stub.compare;
      Stub.pass Stub.two_assigned Stub.compare 0;
      Stub.pass Stub.two_assigned Stub.compare 1 ] /\
  outcome Stub.capped_run = Err GraphRecursionError.
Proof. split; vm_compute; reflexivity. Qed.

Lemma capped_run_assign :
  trace Stub.capped_run !! 1 =
    Some (Stub.assign Stub.two Stub.two_assigned Stub.compare).
Proof. by rewrite (proj1 capped_run_trace). Qed.

(** C1. Two tasks, both assigned a role, every external call succeeding:
    the run makes two executor passes and the index ends at 2, but after the
    second pass [results] holds the second result only, and that is all the
    run's final state has: [results.length] is 1, not 2. *)
Theorem results_overwritten_on_two_tasks :
  step_node <$> trace Stub.two_task_run =
    [planner; roleAssigner; executor; executor; reporter] /\
  trace Stub.two_task_run !! 2 =
    Some (mkStep executor (Stub.executed Stub.two_assigned Stub.compare 0)
            (Ok (Stub.executed Stub.two_assigned Stub.compare 1))) /\
  trace Stub.two_task_run !! 3 =
    Some (mkStep executor (Stub.executed Stub.two_assigned Stub.compare 1)
            (Ok (Stub.executed Stub.two_assigned Stub.compare 2))) /\
  results (Stub.executed Stub.two_assigned Stub.compare 1) = ["Result-1"] /\
  results (Stub.executed Stub.two_assigned Stub.compare 2) = ["Result-2"] /\
  currentTaskIndex <$> outcome Stub.two_task_run = Ok 2 /\
  results <$> outcome Stub.two_task_run = Ok ["Result-2"].
Proof.
  rewrite two_task_run_trace, two_task_run_outcome.
  repeat split; vm_compute; reflexivity.
Qed.

(** C2. The decomposer yields no task and the role assigner none: the
    executor node is entered once all the same, with the empty task list,
    and throws on [tasks[0]]; the run ends with that error and the reporter
    is never entered. *)
Theorem empty_task_list_enters_executor :
  trace Stub.no_task_run =
    [ mkStep planner (initialState Stub.compare) (Ok (Stub.planned [] Stub.compare));
      mkStep roleAssigner (Stub.planned [] Stub.compare)
        (Ok (Stub.executed [] Stub.compare 0));
      mkStep executor (Stub.executed [] Stub.compare 0)
        (Err (TypeError "Cannot read properties of undefined (reading 'role')")) ] /\
  outcome Stub.no_task_run =
    Err (TypeError "Cannot read properties of undefined (reading 'role')").
Proof. split; vm_compute; reflexivity. Qed.

(** C3, as stated, fails: on a non-empty task list the role assigner
    completes with a list in which one task has no role and another has a
    role of one key skill. *)
Lemma RoleAssigner_run_role_optional :
  Stub.unassigned <$> Stub.two <> [] /\
  RoleAssigner_run (Stub.llm "<json>")
    (Stub.reader "<json>" (TasksWithRoles_to_json Stub.loosely_assigned))
    (Stub.unassigned <$> Stub.two) 0 = (Ok Stub.loosely_assigned, 0) /\
  Exists (fun t => Task.role t = None) Stub.loosely_assigned /\
  Exists (fun t => exists r, Task.role t = Some r /\ length (Role.keySkills r) <> 3)
    Stub.loosely_assigned.
Proof.
  split; [done|]. split; [vm_compute; reflexivity|]. split.
  - by apply Exists_cons_hd.
  - apply Exists_cons_tl, Exists_cons_hd. eexists. split; [reflexivity|].
    simpl. lia.
Qed.

(** The schema theorem on a reply with a role-less task and a one-skill role. *)
Lemma RoleAssigner_run_schema_witness :
  RoleAssigner_run (Stub.llm "<json>")
    (Stub.reader "<json>" (TasksWithRoles_to_json Stub.loosely_assigned))
    (Stub.unassigned <$> Stub.two) 0 = (Ok Stub.loosely_assigned, 0).
Proof.
  apply (proj1 (RoleAssigner_run_schema (Stub.llm "<json>")
                  (Stub.reader "<json>" (TasksWithRoles_to_json Stub.loosely_assigned))
                  (Stub.unassigned <$> Stub.two) 0 0 "<json>" eq_refl)).
  reflexivity.
Defined.

(** Two tasks in, one merged task out: the reply is returned as it is. *)
Lemma RoleAssigner_run_verbatim_witness :
  RoleAssigner_run (Stub.llm "<json>")
    (Stub.reader "<json>" (TasksWithRoles_to_json Stub.merged))
    (Stub.unassigned <$> Stub.two) 0 = (Ok Stub.merged, 0) /\
  length Stub.merged <> length (Stub.unassigned <$> Stub.two).
Proof.
  split.
  - apply (RoleAssigner_run_verbatim (Stub.llm "<json>")
             (Stub.reader "<json>" (TasksWithRoles_to_json Stub.merged))
             (Stub.unassigned <$> Stub.two) 0 0 "<json>"
             (TasksWithRoles_to_json Stub.merged) Stub.merged);
      reflexivity.
  - simpl. lia.
Defined.

(** A task with its role runs the agent; the same task without it throws. *)
Lemma Executor_run_role_precondition_witness :
  Executor_run Stub.agent (Some (Stub.with_role "Research X")) 0 =
    (Ok "Result-1", 1) /\
  Executor_run Stub.agent (Some (Stub.unassigned "Research X")) 0 =
    (Err (TypeError "Cannot read properties of undefined (reading 'name')"), 0).
Proof.
  exact (Executor_run_role_precondition Stub.agent (Stub.with_role "Research X")
           Stub.explorer 0 eq_refl).
Defined.

(** The second of two results stands under the label [Info 2]. *)
Lemma Reporter_run_prompt_witness :
  occurs_in ("Info 2:" +:+ LF +:+ "Result-2")
    (Reporter_human Stub.compare (Reporter_results ["Result-1"; "Result-2"])).
Proof.
  destruct (Reporter_run_prompt (Stub.llm "<json>") Stub.compare
              ["Result-1"; "Result-2"] 0) as (_ & human & Hprompt & _ & Hinfo & _).
  injection Hprompt as <-. exact (Hinfo 1 "Result-2" eq_refl).
Defined.

(** The first executor pass of the two-task run leaves tasks, report and query alone. *)
Lemma node_update_frame_witness :
  nodes (Stub.graph Stub.two Stub.two_assigned) executor
    (Stub.executed Stub.two_assigned Stub.compare 0) 0 =
    (Ok (mkPartial None None (Some 1) (Some ["Result-1"]) None), 1) /\
  tasks (Stub.executed Stub.two_assigned Stub.compare 1) = Stub.two_assigned /\
  finalReport (Stub.executed Stub.two_assigned Stub.compare 1) = "" /\
  query (Stub.executed Stub.two_assigned Stub.compare 1) = Stub.compare.
Proof.
  split; [reflexivity|].
  pose proof (node_update_frame (Stub.decomposer Stub.two) (Stub.llm "<json>")
                (Stub.reader "<json>" (TasksWithRoles_to_json Stub.two_assigned))
                Stub.agent executor
                (Stub.executed Stub.two_assigned Stub.compare 0) 0 1
                (mkPartial None None (Some 1) (Some ["Result-1"]) None) eq_refl) as H.
  cbv zeta in H. destruct H as (_ & Hq & _ & _ & Ht & Hf).
  split; [exact Ht|]. split; [exact Hf|exact Hq].
Defined.

(** After the second pass of the two-task run the index is 2 of 2 and the reporter follows. *)
Lemma executor_to_reporter_iff_witness :
  step_post (Stub.pass Stub.two_assigned Stub.compare 1) =
    Ok (step_pre (Stub.report Stub.two_assigned Stub.compare 2)) /\
  (step_node (Stub.report Stub.two_assigned Stub.compare 2) = reporter <->
   currentTaskIndex (step_pre (Stub.report Stub.two_assigned Stub.compare 2)) =
   length (tasks (step_pre (Stub.report Stub.two_assigned Stub.compare 2)))) /\
  (step_node (Stub.report Stub.two_assigned Stub.compare 2) = executor <->
   currentTaskIndex (step_pre (Stub.report Stub.two_assigned Stub.compare 2)) <
   length (tasks (step_pre (Stub.report Stub.two_assigned Stub.compare 2)))).
Proof.
  exact (executor_to_reporter_iff (Stub.decomposer Stub.two) (Stub.llm "<json>")
           (Stub.reader "<json>" (TasksWithRoles_to_json Stub.two_assigned))
           Stub.agent recursionLimit Stub.compare 0 3
           (Stub.pass Stub.two_assigned Stub.compare 1)
           (Stub.report Stub.two_assigned Stub.compare 2)
           two_task_run_pass2 two_task_run_report eq_refl).
Defined.

(** From the first to the second pass of the two-task run. *)
Lemma currentTaskIndex_monotone_bounded_witness :
  currentTaskIndex (step_pre (Stub.pass Stub.two_assigned Stub.compare 0)) <=
    currentTaskIndex (step_pre (Stub.pass Stub.two_assigned Stub.compare 1)) /\
  currentTaskIndex (step_pre (Stub.pass Stub.two_assigned Stub.compare 1)) <=
    length (tasks (step_pre (Stub.pass Stub.two_assigned Stub.compare 1))).
Proof.
  pose proof (currentTaskIndex_monotone_bounded (Stub.decomposer Stub.two)
                (Stub.llm "<json>")
                (Stub.reader "<json>" (TasksWithRoles_to_json Stub.two_assigned))
                Stub.agent recursionLimit Stub.compare 0 2 3
                (Stub.pass Stub.two_assigned Stub.compare 0)
                (Stub.pass Stub.two_assigned Stub.compare 1)
                (le_S 2 2 (le_n 2)) two_task_run_pass1 two_task_run_pass2)
    as (Hmono & Hbound & _).
  exact (conj Hmono Hbound).
Defined.

(** Two tasks under a limit of four super-steps: five nodes would be
    entered. *)
Lemma recursion_limit_abort_witness :
  (exists e, outcome Stub.capped_run = Err e) /\
  (forall p st, trace Stub.capped_run !! p = Some st -> step_node st <> reporter).
Proof.
  pose proof (proj2 (recursion_limit_abort (Stub.decomposer Stub.two)
                       (Stub.llm "<json>")
                       (Stub.reader "<json>" (TasksWithRoles_to_json Stub.two_assigned))
                       Stub.agent 4 Stub.compare 0)
                (Stub.assign Stub.two Stub.two_assigned Stub.compare)
                (Stub.executed Stub.two_assigned Stub.compare 0)
                capped_run_assign eq_refl (le_S 5 5 (le_n 5)))
    as (Herr & _ & Hnever).
  exact (conj Herr (Hnever (le_n 5))).
Defined.

(** C10, as stated, fails twice.  With 997 tasks [run] enters 1000 nodes:
    the reporter is entered as the thousandth and completes, and the run
    ends with [GraphRecursionError] all the same.  And a decomposer that
    finds more tasks than the limit does not make the run abort when the
    role assigner's reply holds two: that run ends well. *)
Lemma recursion_limit_reporter_runs :
  (((fun st => (step_node st, currentTaskIndex <$> step_post st)) <$>
      trace Stub.boundary_run !! 999) = Some (reporter, Ok 997) /\
   outcome Stub.boundary_run = Err GraphRecursionError /\
   (run (Stub.decomposer (Stub.many 997)) (Stub.llm "<json>")
      (Stub.reader "<json>"
         (TasksWithRoles_to_json (Stub.with_role <$> Stub.many 997)))
      Stub.agent Stub.compare 0).1 = Err GraphRecursionError) /\
  (recursionLimit < length (Stub.many 1001) /\
   currentTaskIndex <$> outcome Stub.shortened_run = Ok 2).
Proof.
  split; [split; [|split]|split]; vm_compute; reflexivity.
Qed.

(** ** What the schemas accept and reject *)

(** The parsers of the three schemas fail with the parser's exception only. *)
Lemma z_string_Err v e : z_string v = Err e -> e = OutputParserException.
Proof. destruct v as [[]|]; cbn; congruence. Qed.

Lemma mapM_Err {A} (f : Json -> Result A) (items : list Json) e :
  (forall j e', f j = Err e' -> e' = OutputParserException) ->
  mapM f items = Err e -> e = OutputParserException.
Proof.
  intros Hf. induction items as [|j items IH]; cbn; [done|].
  destruct (f j) as [a|e'] eqn:Hj; cbn.
  - destruct (mapM f items) as [l|e'']; cbn; [done|].
    intros [= <-]. by apply IH.
  - intros [= <-]. by eapply Hf.
Qed.

Lemma RoleSchema_Err v e : RoleSchema v = Err e -> e = OutputParserException.
Proof.
  destruct v as [[]|]; cbn; try congruence.
  destruct (z_string (obj_get fields "name")) eqn:H1; cbn;
    [|intros [= <-]; by eapply z_string_Err].
  destruct (z_string (obj_get fields "description")) eqn:H2; cbn;
    [|intros [= <-]; by eapply z_string_Err].
  destruct (obj_get fields "keySkills") as [[]|]; cbn; try congruence.
  destruct (mapM _ items) eqn:H3; cbn; [done|].
  intros [= <-]. eapply mapM_Err; [|exact H3].
  intros j e'. apply (z_string_Err (Some j)).
Qed.

Lemma TaskSchema_Err v e : TaskSchema v = Err e -> e = OutputParserException.
Proof.
  destruct v as [[]|]; cbn -[RoleSchema]; try congruence.
  destruct (z_string (obj_get fields "description")) eqn:H1; cbn -[RoleSchema];
    [|intros [= <-]; by eapply z_string_Err].
  destruct (obj_get fields "role") as [jr|]; cbn -[RoleSchema]; [|done].
  destruct (RoleSchema (Some jr)) eqn:H2; cbn; [done|].
  intros [= <-]. by eapply RoleSchema_Err.
Qed.

Lemma TasksWithRolesSchema_Err v e :
  TasksWithRolesSchema v = Err e -> e = OutputParserException.
Proof.
  destruct v as [[]|]; cbn -[TaskSchema mapM]; try congruence.
  destruct (obj_get fields "tasks") as [[]|]; cbn -[TaskSchema mapM]; try congruence.
  apply mapM_Err. intros j e'. apply (TaskSchema_Err (Some j)).
Qed.

(** X1. [RoleSchema] accepts a JSON value exactly when it is an object whose
    [name] and [description] are strings and whose [keySkills] is an array
    of strings, of any length; the role read holds those three values.  A
    missing key, a non-string and a non-array are rejected; other keys are
    ignored. *)
Theorem RoleSchema_accepts_iff (j : Json) (r : Role) :
  RoleSchema (Some j) = Ok r <->
  exists fields,
    j = JObject fields /\
    obj_get fields "name" = Some (JString (Role.name r)) /\
    obj_get fields "description" = Some (JString (Role.description r)) /\
    obj_get fields "keySkills" = Some (JArray (JString <$> Role.keySkills r)).
Proof.
  split.
  - destruct j; cbn; try done.
    destruct (obj_get fields "name") as [[]|] eqn:Hn; cbn; try done.
    destruct (obj_get fields "description") as [[]|] eqn:Hd; cbn; try done.
    destruct (obj_get fields "keySkills") as [[]|] eqn:Hk; cbn; try done.
    destruct (mapM _ items) as [ks|] eqn:Hks; cbn; [|done].
    intros [= <-]. apply mapM_z_string_inv in Hks as ->.
    exists fields. by rewrite Hn, Hd, Hk.
  - intros (fields & -> & Hn & Hd & Hk). destruct r as [n d k]; cbn in *.
    rewrite Hn, Hd, Hk. cbn.
    pose proof (mapM_Result_fmap (fun j => z_string (Some j)) JString k
                  (fun _ => eq_refl)) as Hks.
    cbn in Hks. by rewrite Hks.
Qed.

(** X2. [TaskSchema] accepts a JSON value exactly when it is an object with
    a string [description] and either no [role] key, read as a task without
    a role, or a [role] value that [RoleSchema] accepts.  A [role] that is
    present but is not a valid role, [null] included, rejects the task. *)
Theorem TaskSchema_accepts_iff (j : Json) (t : Task) :
  TaskSchema (Some j) = Ok t <->
  exists fields,
    j = JObject fields /\
    obj_get fields "description" = Some (JString (Task.description t)) /\
    match obj_get fields "role" with
    | None => Task.role t = None
    | Some jr => exists r, Task.role t = Some r /\ RoleSchema (Some jr) = Ok r
    end.
Proof.
  split.
  - destruct j; cbn -[RoleSchema]; try done.
    destruct (obj_get fields "description") as [[]|] eqn:Hd;
      cbn -[RoleSchema]; try done.
    destruct (obj_get fields "role") as [jr|] eqn:Hrole; cbn -[RoleSchema].
    + destruct (RoleSchema (Some jr)) as [r|] eqn:Hr; cbn; [|done].
      intros [= <-]. exists fields. rewrite Hd, Hrole. eauto.
    + intros [= <-]. exists fields. by rewrite Hd, Hrole.
  - intros (fields & -> & Hd & Hrole). destruct t as [d ro]; cbn -[RoleSchema] in *.
    rewrite Hd. cbn -[RoleSchema].
    destruct (obj_get fields "role") as [jr|]; cbn -[RoleSchema].
    + destruct Hrole as (r & -> & Hr). by rewrite Hr.
    + by rewrite Hrole.
Qed.

(** X3. Writing a task list as JSON and reading it with
    [TasksWithRolesSchema] gives the list back, roles present or not and
    with any number of key skills; so two task lists written alike are the
    same list. *)
Theorem TasksWithRoles_json_round_trip :
  (forall ts, TasksWithRolesSchema (Some (TasksWithRoles_to_json ts)) = Ok ts) /\
  (forall ts ts', TasksWithRoles_to_json ts = TasksWithRoles_to_json ts' -> ts = ts').
Proof.
  split; [apply TasksWithRolesSchema_to_json|].
  intros ts ts' Heq.
  pose proof (TasksWithRolesSchema_to_json ts) as H.
  rewrite Heq, TasksWithRolesSchema_to_json in H. by injection H.
Qed.

(** ** More on the components *)

Lemma occur_in_order_l (x y s b : string) :
  occur_in_order x y s -> occur_in_order x y (s +:+ b).
Proof.
  intros (a & m & c & ->). exists a, m, (c +:+ b). by rewrite !append_assoc.
Qed.

Lemma occur_in_order_split (x y a b : string) :
  occurs_in x a -> occurs_in y b -> occur_in_order x y (a +:+ b).
Proof.
  intros (p1 & q1 & ->) (p2 & q2 & ->).
  exists p1, (q1 +:+ p2), q2. by rewrite !append_assoc.
Qed.


Section MoreComponents.

Context {World : Type}.
Variable llm_invoke : list Message -> IO World string.
Variable parse_json_markdown : string -> option Json.
Variable baseAgent_invoke : list Message -> IO World (list Message).

(** X4. [RoleAssigner.run] fails in two ways only: the model call fails,
    with the call's error, or the model replied and the reply holds no JSON
    value or one the schema rejects, with the parser's exception.  A reply
    is never coerced into a task list. *)
Theorem RoleAssigner_run_Err_iff (tasks : list Task) (w w' : World) (e : Error) :
  RoleAssigner_run llm_invoke parse_json_markdown tasks w = (Err e, w') <->
  llm_invoke (RoleAssigner_prompt tasks) w = (Err e, w') \/
  (e = OutputParserException /\
   exists text,
     llm_invoke (RoleAssigner_prompt tasks) w = (Ok text, w') /\
     (parse_json_markdown text = None \/
      exists j, parse_json_markdown text = Some j /\
                TasksWithRolesSchema (Some j) = Err OutputParserException)).
Proof.
  rewrite RoleAssigner_run_eq.
  destruct (llm_invoke (RoleAssigner_prompt tasks) w) as [[text|e0] w0] eqn:Hllm.
  - unfold StructuredOutputParser. split.
    + destruct (parse_json_markdown text) as [j|] eqn:Hj.
      * intros [= Hs <-]. pose proof (TasksWithRolesSchema_Err (Some j) _ Hs) as ->.
        right. split; [done|]. exists text. eauto.
      * intros [= <- <-]. right. split; [done|]. exists text. eauto.
    + intros [[=]|(-> & text' & [= <- <-] & [Hnone|(j & Hj & Hs)])].
      * by rewrite Hnone.
      * by rewrite Hj, Hs.
  - split.
    + intros [= <- <-]. by left.
    + intros [[= <- <-]|(_ & text & [=] & _)]. done.
Qed.

(** X5. The prompt of [RoleAssigner.run] has a system and a human message;
    the human message holds the description of every task, in the order of
    the list, and nothing else of the tasks: two lists with the same
    descriptions give the same prompt, whatever roles they carry. *)
Theorem RoleAssigner_prompt_descriptions (tasks : list Task) :
  exists human,
    RoleAssigner_prompt tasks =
      [mkMessage "system" RoleAssigner_system; mkMessage "human" human] /\
    (forall i t, tasks !! i = Some t -> occurs_in (Task.description t) human) /\
    (forall i j ti tj, i < j -> tasks !! i = Some ti -> tasks !! j = Some tj ->
       occur_in_order (Task.description ti) (Task.description tj) human) /\
    (forall tasks', Task.description <$> tasks' = Task.description <$> tasks ->
       RoleAssigner_prompt tasks' = RoleAssigner_prompt tasks).
Proof.
  eexists. split; [reflexivity|]. unfold RoleAssigner_human. split; [|split].
  - intros i t Hi. do 2 apply occurs_in_r. apply occurs_in_l.
    apply (Array_join_occurs _ _ i). by rewrite list_lookup_fmap, Hi.
  - intros i j ti tj Hij Hi Hj. do 2 apply occur_in_order_r.
    apply occur_in_order_l.
    apply (Array_join_occurs_ordered _ _ i j); [done| |].
    + by rewrite list_lookup_fmap, Hi.
    + by rewrite list_lookup_fmap, Hj.
  - intros tasks' Heq. unfold RoleAssigner_prompt. by rewrite Heq.
Qed.

(** X6. [Executor.run] returns a string exactly when the task is there, has
    a role, the agent called on the persona messages succeeds and its
    message list is not empty: the string is the content of the last
    message. *)
Theorem Executor_run_Ok_iff (task : option Task) (w w' : World) (result : string) :
  Executor_run baseAgent_invoke task w = (Ok result, w') <->
  exists t r messages m,
    task = Some t /\ Task.role t = Some r /\
    baseAgent_invoke (Executor_messages r (Task.description t)) w =
      (Ok messages, w') /\
    last messages = Some m /\ result = content m.
Proof.
  unfold Executor_run. destruct task as [t|]; [|split; [done|]].
  - destruct (Task.role t) as [r|] eqn:Hr.
    + io_unfold.
      io_call (baseAgent_invoke (Executor_messages r (Task.description t)) w).
      * unfold last_content. destruct (last r0) as [m|] eqn:Hlast.
        -- split.
           ++ intros [= <- <-]. by exists t, r, r0, m.
           ++ intros (t' & r' & ms & m' & [= <-] & Hr' & Hcall' & Hl & ->).
              rewrite Hr in Hr'. injection Hr' as <-.
              rewrite Hcall in Hcall'. injection Hcall' as <- <-.
              rewrite Hlast in Hl. by injection Hl as <-.
        -- split; [done|].
           intros (t' & r' & ms & m' & [= <-] & Hr' & Hcall' & Hl & ->).
           rewrite Hr in Hr'. injection Hr' as <-.
           rewrite Hcall in Hcall'. injection Hcall' as <- <-.
           by rewrite Hlast in Hl.
      * split; [done|].
        intros (t' & r' & ms & m' & [= <-] & Hr' & Hcall' & _).
        rewrite Hr in Hr'. injection Hr' as <-. by rewrite Hcall in Hcall'.
    + split; [done|].
      intros (t' & r' & ms & m' & [= <-] & Hr' & _). by rewrite Hr in Hr'.
  - by intros (t' & r' & ms & m' & [=] & _).
Qed.

(** X17. [Executor.run] fails in four ways only: the task is missing or has
    no role, with a [TypeError] and before the agent is called, so that the
    world is as it was; the agent call fails, with the call's error; or the
    agent returns no message, with a [TypeError] on the read of the last
    one. *)
Theorem Executor_run_Err_iff (task : option Task) (w w' : World) (e : Error) :
  Executor_run baseAgent_invoke task w = (Err e, w') <->
  (task = None /\ w' = w /\
   e = TypeError "Cannot read properties of undefined (reading 'role')") \/
  (exists t, task = Some t /\ Task.role t = None /\ w' = w /\
     e = TypeError "Cannot read properties of undefined (reading 'name')") \/
  (exists t r, task = Some t /\ Task.role t = Some r /\
     baseAgent_invoke (Executor_messages r (Task.description t)) w = (Err e, w')) \/
  (exists t r, task = Some t /\ Task.role t = Some r /\
     baseAgent_invoke (Executor_messages r (Task.description t)) w = (Ok [], w') /\
     e = TypeError "Cannot read properties of undefined (reading 'content')").
Proof.
  unfold Executor_run. destruct task as [t|].
  - destruct (Task.role t) as [r|] eqn:Hr.
    + io_unfold.
      io_call (baseAgent_invoke (Executor_messages r (Task.description t)) w).
      * unfold last_content. destruct (last r0) as [m|] eqn:Hlast.
        -- split; [done|].
           intros [(? & _)|[(t' & [= <-] & Hr' & _)|[(t' & r' & [= <-] & Hr' & Hc)|
                   (t' & r' & [= <-] & Hr' & Hc & _)]]]; try done.
           ++ by rewrite Hr in Hr'.
           ++ rewrite Hr in Hr'. injection Hr' as <-. by rewrite Hcall in Hc.
           ++ rewrite Hr in Hr'. injection Hr' as <-. rewrite Hcall in Hc.
              injection Hc as -> _. done.
        -- apply last_None in Hlast as ->. split.
           ++ intros [= <- <-]. right. right. right. by exists t, r.
           ++ intros [(? & _)|[(t' & [= <-] & Hr' & _)|[(t' & r' & [= <-] & Hr' & Hc)|
                      (t' & r' & [= <-] & Hr' & Hc & ->)]]]; try done.
              ** by rewrite Hr in Hr'.
              ** rewrite Hr in Hr'. injection Hr' as <-. by rewrite Hcall in Hc.
              ** rewrite Hr in Hr'. injection Hr' as <-. rewrite Hcall in Hc.
                 by injection Hc as <-.
      * split.
        -- intros [= <- <-]. right. right. left. by exists t, r.
        -- intros [(? & _)|[(t' & [= <-] & Hr' & _)|[(t' & r' & [= <-] & Hr' & Hc)|
                   (t' & r' & [= <-] & Hr' & Hc & _)]]]; try done.
           ++ by rewrite Hr in Hr'.
           ++ rewrite Hr in Hr'. injection Hr' as <-. rewrite Hcall in Hc.
              by injection Hc as <- <-.
           ++ rewrite Hr in Hr'. injection Hr' as <-. by rewrite Hcall in Hc.
    + split.
      * intros [= <- <-]. right. left. by exists t.
      * intros [(? & _)|[(t' & [= <-] & _ & -> & ->)|[(t' & r' & [= <-] & Hr' & _)|
                (t' & r' & [= <-] & Hr' & _)]]]; try done.
        -- by rewrite Hr in Hr'.
        -- by rewrite Hr in Hr'.
  - split.
    + intros [= <- <-]. by left.
    + intros [(_ & -> & ->)|[(t' & [=] & _)|[(t' & r' & [=] & _)|
              (t' & r' & [=] & _)]]]; done.
Qed.

(** X7. The messages [Executor.run] sends: a system message that holds the
    role's name, then its description, then every key skill in the order of
    the list, and a human message that holds the task's description. *)
Theorem Executor_messages_persona (r : Role) (description : string) :
  exists system human,
    Executor_messages r description =
      [mkMessage "system" system; mkMessage "human" human] /\
    occur_in_order (Role.name r) (Role.description r) system /\
    (forall i k, Role.keySkills r !! i = Some k ->
       occur_in_order (Role.description r) k system) /\
    (forall i j ki kj, i < j ->
       Role.keySkills r !! i = Some ki -> Role.keySkills r !! j = Some kj ->
       occur_in_order ki kj system) /\
    occurs_in description human.
Proof.
  eexists _, _. split; [reflexivity|]. unfold Executor_system, Executor_human.
  split; [|split; [|split]].
  - apply occur_in_order_r, occur_in_order_split; [apply occurs_in_refl|].
    do 3 apply occurs_in_r. apply occurs_in_l, occurs_in_refl.
  - intros i k Hi. do 5 apply occur_in_order_r.
    apply occur_in_order_split; [apply occurs_in_refl|].
    do 2 apply occurs_in_r. apply occurs_in_l. by apply (Array_join_occurs _ _ i).
  - intros i j ki kj Hij Hi Hj. do 8 apply occur_in_order_r.
    apply occur_in_order_l. by apply (Array_join_occurs_ordered _ _ i j).
  - do 3 apply occurs_in_r. apply occurs_in_refl.
Qed.


End MoreComponents.

(** ** More on the runs *)

Section MoreDriver.

Context {World : Type} (g : StateGraph World).

(** Every step but the last one of a run succeeded. *)
Lemma superSteps_prefix_Ok limit n s w i st :
  trace (superSteps g limit n s w) !! i = Some st ->
  S i < length (trace (superSteps g limit n s w)) ->
  exists s', step_post st = Ok s'.
Proof.
  intros Hi Hlt.
  destruct (lookup_lt_is_Some_2 _ _ Hlt) as [b Hb].
  destruct (superSteps_adjacent g _ _ _ _ _ _ _ Hi Hb) as [Hpost _]. eauto.
Qed.

(** A run that ends in an error ends on the step that threw it, or has
    spent every super-step on steps that succeeded. *)
Lemma superSteps_outcome_Err limit n s w e :
  outcome (superSteps g limit n s w) = Err e ->
  (exists st, last (trace (superSteps g limit n s w)) = Some st /\
              step_post st = Err e) \/
  (e = GraphRecursionError /\
   length (trace (superSteps g limit n s w)) = limit /\
   Forall (fun st => exists s', step_post st = Ok s')
     (trace (superSteps g limit n s w))).
Proof.
  revert n s w. induction limit as [|limit IH]; intros n s w; simpl.
  - intros [= <-]. right. by repeat split.
  - destruct (nodes g n s w) as [[u|e0] w'] eqn:Hn; simpl.
    + destruct (edges g n _) as [n'|] eqn:He; simpl.
      * intros Ho.
        destruct (IH _ _ _ Ho) as [(st & Hl & Hp)|(-> & Hlen & Hall)].
        -- left. exists st. split; [|done].
           destruct (trace (superSteps g limit n' _ w')) as [|x l]; [done|].
           by rewrite last_cons, Hl.
        -- right. split; [done|]. split; [by rewrite Hlen|].
           apply Forall_cons. split; [simpl; eauto|done].
      * destruct limit; [|done]. intros [= <-]. right. split; [done|].
        split; [done|]. apply Forall_cons. split; [simpl; eauto|done].
    + intros [= <-]. left. eexists. by split.
Qed.

End MoreDriver.

Section MoreRuns.

Context {World : Type}.
Variable queryDecomposer_run : string -> IO World (list string).
Variable llm_invoke : list Message -> IO World string.
Variable parse_json_markdown : string -> option Json.
Variable baseAgent_invoke : list Message -> IO World (list Message).

Abbreviation G' :=
  (createGraph queryDecomposer_run llm_invoke parse_json_markdown
     baseAgent_invoke).
Abbreviation run' :=
  (run queryDecomposer_run llm_invoke parse_json_markdown baseAgent_invoke).

(** Split on the node and replace its update by what the node returns. *)
Ltac node_split n H :=
  destruct n; simpl in H;
  [ apply planTasks_Ok in H as [? ->]
  | apply assignRoles_Ok in H as [? ->]
  | apply executeTask_Ok in H as (? & ? & ? & ? & ? & ->)
  | apply generateReport_Ok in H as [? ->] ].

(** X9. An error ends the run: when a run ends in an error, every step
    before the last one succeeded, and one of three holds.  The last step
    is the node that threw the error; or the error is the recursion limit's
    and every one of the [limit] steps succeeded, the last of which may be
    the reporter; or the limit passed is 0, [invoke] refused it and no node
    was entered.  [run] then returns the error and no report. *)
Theorem run_error_propagates limit q w e :
  outcome (invoke G' (initialState q) limit w) = Err e ->
  (forall i st,
      trace (invoke G' (initialState q) limit w) !! i = Some st ->
      S i < length (trace (invoke G' (initialState q) limit w)) ->
      exists s', step_post st = Ok s') /\
  ((exists st, last (trace (invoke G' (initialState q) limit w)) = Some st /\
               step_post st = Err e) \/
   (e = GraphRecursionError /\ 0 < limit /\
    length (trace (invoke G' (initialState q) limit w)) = limit /\
    Forall (fun st => exists s', step_post st = Ok s')
      (trace (invoke G' (initialState q) limit w))) \/
   (e = InvalidRecursionLimit /\ limit = 0 /\
    trace (invoke G' (initialState q) limit w) = [])) /\
  (limit = recursionLimit -> (run' q w).1 = Err e).
Proof.
  intros Ho. split; [|split].
  - intros i st. rewrite invoke_trace. apply superSteps_prefix_Ok.
  - destruct limit as [|limit].
    + right. right. simpl in Ho. by injection Ho as <-.
    + rewrite invoke_S in *.
      destruct (superSteps_outcome_Err _ _ _ _ _ _ Ho) as [H|(-> & Hlen & Hall)].
      * by left.
      * right. left. split; [done|]. split; [lia|]. by split.
  - intros ->. by rewrite run_outcome, Ho.
Qed.

(** X10. Along a run the query is the caller's and the final report stays
    empty: both hold where every step is entered, and where a step other
    than the reporter's is left. *)
Theorem run_keeps_query_and_empty_report limit q w i st :
  trace (invoke G' (initialState q) limit w) !! i = Some st ->
  query (step_pre st) = q /\ finalReport (step_pre st) = "" /\
  (forall s', step_post st = Ok s' ->
     query s' = q /\ (step_node st <> reporter -> finalReport s' = "")).
Proof.
  intros Hi.
  assert (query (step_pre st) = q /\ finalReport (step_pre st) = "") as [Hq Hf].
  { rewrite invoke_trace in Hi.
    apply (superSteps_invariant G'
             (fun _ _ s => query s = q /\ finalReport s = "")) with (k := 0)
      in Hi; [done| |done].
    clear. intros _ n s w u w' n' [Hq Hf] Hnode Hedge.
    node_split n Hnode; simpl in *; done. }
  split; [done|]. split; [done|].
  intros s' Hpost. rewrite invoke_trace in Hi.
  destruct (superSteps_step G' _ _ _ _ _ _ Hi) as (w1 & w2 & Hnode).
  rewrite Hpost in Hnode. destruct Hnode as (u & Hnode & ->).
  destruct st as [n s post]; simpl in *.
  node_split n Hnode; simpl; done.
Qed.

(** X11. The role assigner is entered, as the second step, with what the
    planner made of the decomposer's answer: one task per description, in
    the decomposer's order, none with a role, and the rest of the state as
    [run] set it. *)
Theorem roleAssigner_entered_with_planned_tasks limit q w st :
  trace (invoke G' (initialState q) limit w) !! 1 = Some st ->
  exists values w1,
    queryDecomposer_run q w = (Ok values, w1) /\
    step_node st = roleAssigner /\
    step_pre st =
      mkAgentState q ((fun d => Task.mk d None) <$> values) 0 [] "".
Proof.
  destruct limit as [|[|limit]]; [done| |].
  - rewrite invoke_S, superSteps_S. simpl entryPoint.
    destruct (nodes G' planner (initialState q) w) as [[u0|e0] w0]; done.
  - rewrite invoke_S, superSteps_S. simpl entryPoint. simpl nodes.
    unfold planTasks, Planner_run. io_unfold.
    io_call (queryDecomposer_run (query (initialState q)) w); [|done].
    cbv zeta. simpl edges. cbv iota. rewrite superSteps_S.
    intros Hst. exists r, w0. split; [done|].
    destruct (nodes G' roleAssigner _ w0) as [[u1|e1] w1].
    + cbv zeta in Hst. simpl edges in Hst. cbv iota in Hst.
      simpl in Hst. by injection Hst as <-.
    + simpl in Hst. by injection Hst as <-.
Qed.

(** A run that ends well ends on a completed reporter step. *)
Lemma successful_run_last limit q w s :
  outcome (invoke G' (initialState q) limit w) = Ok s ->
  exists st,
    trace (invoke G' (initialState q) limit w)
      !! pred (length (trace (invoke G' (initialState q) limit w))) = Some st /\
    step_node st = reporter /\ step_post st = Ok s /\
    tasks s = tasks (step_pre st) /\
    currentTaskIndex s = currentTaskIndex (step_pre st) /\
    results s = results (step_pre st).
Proof.
  intros Ho. apply invoke_outcome_Ok in Ho.
  apply superSteps_outcome_Ok in Ho as (st & Hlast & Hpost & Hend).
  rewrite last_lookup in Hlast. exists st. rewrite invoke_trace. split; [done|].
  assert (step_node st = reporter) as Hn.
  { destruct (step_node st); simpl in Hend; try done. by destruct (Nat.ltb _ _). }
  split; [done|]. split; [done|].
  destruct (superSteps_step G' _ _ _ _ _ _ Hlast) as (w1 & w2 & Hnode).
  rewrite Hpost, Hn in Hnode. destruct Hnode as (u & Hnode & ->). simpl in Hnode.
  by apply generateReport_Ok in Hnode as [report ->].
Qed.

(** X12. A run returns a report only after a full pass over the tasks: when
    it ends well there is at least one task, every task has a role, the
    index equals the number of tasks, and the run made [tasks.length + 3]
    steps within the limit: the planner, the role assigner, one executor
    pass per task and, last, the reporter.  The final [results] holds one
    element. *)
Theorem successful_run_shape limit q w s :
  outcome (invoke G' (initialState q) limit w) = Ok s ->
  tasks s <> [] /\
  Forall (fun t => is_Some (Task.role t)) (tasks s) /\
  currentTaskIndex s = length (tasks s) /\
  length (results s) = 1 /\
  length (trace (invoke G' (initialState q) limit w)) = length (tasks s) + 3 /\
  length (tasks s) + 3 <= limit /\
  (forall k st,
      trace (invoke G' (initialState q) limit w) !! k = Some st ->
      step_node st =
        match k with
        | 0 => planner
        | 1 => roleAssigner
        | _ => if Nat.ltb k (length (tasks s) + 2) then executor else reporter
        end).
Proof.
  intros Ho.
  destruct (successful_run_last _ _ _ _ Ho)
    as (stl & Hl & Hnl & Hpl & Htl & Hil & Hrl).
  pose proof (run_Inv _ _ _ _ _ _ _ _ _ Hl) as HIl.
  rewrite Hnl in HIl. simpl in HIl. destruct HIl as (Hpos & Hidx & Hgt & Hres).
  pose proof (superSteps_length G' limit (entryPoint G') (initialState q) w) as Hlen.
  rewrite <- invoke_trace in Hlen.
  pose proof (lookup_lt_Some _ _ _ Hl) as Hlt.
  remember (length (trace (invoke G' (initialState q) limit w))) as L eqn:HeqL.
  assert (L = length (tasks s) + 3) as HL.
  { rewrite Htl. lia. }
  assert (forall p st, 2 <= p ->
            trace (invoke G' (initialState q) limit w) !! p = Some st ->
            tasks (step_pre st) = tasks s) as Hfixed.
  { intros p st Hp Hst.
    destruct (lookup_lt_is_Some_2
                (trace (invoke G' (initialState q) limit w)) 1) as [a Ha].
    { rewrite <- HeqL. lia. }
    destruct (tasks_fixed_after_roleAssigner _ _ _ _ _ _ _ _ p _ Ha Hp Hst)
      as (s2 & Hs2 & ->).
    destruct (tasks_fixed_after_roleAssigner _ _ _ _ _ _ _ _ (pred L) _ Ha
                ltac:(lia) Hl) as (s2' & Hs2' & Ht').
    rewrite Hs2 in Hs2'. injection Hs2' as <-. by rewrite Htl, Ht'. }
  split; [|split; [|split; [|split; [|split; [|split]]]]].
  - intros Hnil. rewrite Htl, <- length_zero_iff_nil in Hnil. lia.
  - apply Forall_lookup. intros i t Hi.
    pose proof (lookup_lt_Some _ _ _ Hi) as Hin.
    destruct (lookup_lt_is_Some_2
                (trace (invoke G' (initialState q) limit w)) (i + 2)) as [c Hc].
    { rewrite <- HeqL. lia. }
    pose proof (run_Inv _ _ _ _ _ _ _ _ _ Hc) as HIc.
    pose proof (Hfixed (i + 2) c ltac:(lia) Hc) as Htc.
    rewrite invoke_trace in Hc, HeqL.
    destruct (superSteps_prefix_Ok G' limit (entryPoint G') (initialState q) w
                _ _ Hc) as [s' Hpost].
    { rewrite <- HeqL. lia. }
    destruct (superSteps_step G' _ _ _ _ _ _ Hc) as (w1 & w2 & Hnode).
    rewrite Hpost in Hnode. destruct Hnode as (u & Hnode & _).
    destruct (step_node c); simpl in HIc, Hnode; [lia|lia| |].
    + apply executeTask_Ok in Hnode as (t' & r & res & Ht' & Hr & _).
      destruct HIc as (Hk & _). replace (currentTaskIndex (step_pre c)) with i
        in Ht' by lia.
      rewrite Htc, Hi in Ht'. injection Ht' as <-. by rewrite Hr.
    + destruct HIc as (Hk & Hic & _). rewrite Htc in Hic. lia.
  - rewrite Hil, Htl. done.
  - by rewrite Hrl.
  - done.
  - lia.
  - intros k st Hst.
    pose proof (run_Inv _ _ _ _ _ _ _ _ _ Hst) as HI.
    pose proof (lookup_lt_Some _ _ _ Hst) as Hk. rewrite <- HeqL in Hk.
    destruct (step_node st) eqn:Hn; simpl in HI.
    + by destruct HI as (-> & _).
    + by destruct HI as (-> & _).
    + destruct HI as (Hpos' & _).
      destruct k as [|[|k]]; [lia|lia|].
      destruct (Nat.ltb_spec (S (S k)) (length (tasks s) + 2)); [done|].
      assert (S (S k) = pred L) as Heq by lia.
      rewrite Heq, Hl in Hst. injection Hst as <-. congruence.
    + destruct HI as (Hpos' & Hidx' & _).
      pose proof (Hfixed k st ltac:(lia) Hst) as Ht. rewrite Ht in Hidx'.
      destruct k as [|[|k]]; [lia|lia|].
      destruct (Nat.ltb_spec (S (S k)) (length (tasks s) + 2)); [lia|done].
Qed.

(** The nodes on the calls that succeed. *)
Lemma planTasks_eq s w values w' :
  queryDecomposer_run (query s) w = (Ok values, w') ->
  planTasks queryDecomposer_run s w =
    (Ok (mkPartial None (Some ((fun d => Task.mk d None) <$> values)) None None None),
     w').
Proof. intros H. unfold planTasks, Planner_run. io_unfold. by rewrite H. Qed.

Lemma assignRoles_eq s w ts w' :
  RoleAssigner_run llm_invoke parse_json_markdown (tasks s) w = (Ok ts, w') ->
  assignRoles llm_invoke parse_json_markdown s w =
    (Ok (mkPartial None (Some ts) None None None), w').
Proof. intros H. unfold assignRoles. io_unfold. by rewrite H. Qed.

Lemma executeTask_eq s w t r messages m w' :
  tasks s !! currentTaskIndex s = Some t ->
  Task.role t = Some r ->
  baseAgent_invoke (Executor_messages r (Task.description t)) w = (Ok messages, w') ->
  last messages = Some m ->
  executeTask baseAgent_invoke s w =
    (Ok (mkPartial None None (Some (currentTaskIndex s + 1)) (Some [content m]) None),
     w').
Proof.
  intros Ht Hr Hcall Hlast. unfold executeTask, Executor_run.
  rewrite Ht, Hr. io_unfold. rewrite Hcall. unfold last_content. by rewrite Hlast.
Qed.

Lemma generateReport_eq s w text w' :
  llm_invoke (Reporter_prompt (query s) (results s)) w = (Ok text, w') ->
  generateReport llm_invoke s w =
    (Ok (mkPartial None None None None (Some text)), w').
Proof.
  intros H. unfold generateReport, Reporter_run, StringOutputParser.
  io_unfold. by rewrite H.
Qed.

(** With [k + 1] tasks left, all with a role, an agent that answers and a
    model that answers the reporter, the run enters [k + 2] more nodes and
    [k + 3] super-steps finish it. *)
Lemma executor_loop_completes :
  (forall messages w, exists out m w',
      baseAgent_invoke messages w = (Ok out, w') /\ last out = Some m) ->
  (forall q rs w, exists text w',
      llm_invoke (Reporter_prompt q rs) w = (Ok text, w')) ->
  forall k limit s w,
    Forall (fun t => is_Some (Task.role t)) (tasks s) ->
    currentTaskIndex s + S k = length (tasks s) ->
    S k + 2 <= limit ->
    exists s',
      outcome (superSteps G' limit executor s w) = Ok s' /\
      tasks s' = tasks s /\ currentTaskIndex s' = length (tasks s) /\
      query s' = query s /\
      length (trace (superSteps G' limit executor s w)) = S k + 1.
Proof.
  intros Hagent Hllm. induction k as [|k IH]; intros limit s w Hroles Hidx Hlimit.
  all: destruct limit as [|limit]; [lia|].
  all: destruct (lookup_lt_is_Some_2 (tasks s) (currentTaskIndex s)) as [t Ht];
    [lia|].
  all: destruct (proj1 (Forall_lookup _ _) Hroles _ _ Ht) as [r Hr].
  all: destruct (Hagent (Executor_messages r (Task.description t)) w)
    as (out & m & w1 & Hcall & Hlast).
  all: rewrite superSteps_S; simpl nodes;
    rewrite (executeTask_eq _ _ _ _ _ _ _ Ht Hr Hcall Hlast);
    cbv zeta; simpl edges; simpl currentTaskIndex; simpl tasks.
  - destruct (Nat.ltb_spec (currentTaskIndex s + 1) (length (tasks s))); [lia|].
    destruct limit as [|[|limit]]; [lia|lia|].
    rewrite superSteps_S. simpl nodes.
    match goal with |- context [generateReport _ ?s1 w1] =>
      destruct (Hllm (query s1) (results s1) w1) as (text & w2 & Hrep);
      rewrite (generateReport_eq s1 w1 text w2 Hrep)
    end.
    cbv zeta. simpl edges. cbv iota. simpl.
    eexists. split; [reflexivity|]. simpl. repeat split; (done || lia).
  - destruct (Nat.ltb_spec (currentTaskIndex s + 1) (length (tasks s))); [|lia].
    cbv iota zeta. cbn [outcome trace length].
    match goal with |- context [superSteps G' limit executor ?s1 w1] =>
      destruct (IH limit s1 w1) as (s' & Ho & Hts & Hi & Hq & Hlen);
        [done | simpl; lia | lia |]
    end.
    exists s'. rewrite Ho, Hlen. simpl in Hts, Hi, Hq.
    repeat split; (done || lia).
Qed.

(** X13. A run within the limit finishes: when the decomposer answers, the
    role assigner returns a non-empty list of tasks that all have a role,
    the agent always answers with at least one message and the model always
    answers the reporter's prompt, then a limit of [tasks.length + 4] or more
    is enough: the run enters [tasks.length + 3] nodes and ends well, on
    those tasks, with the index at their number, and [run] returns the
    report. *)
Theorem run_completes limit q w values w1 ts w2 :
  queryDecomposer_run q w = (Ok values, w1) ->
  RoleAssigner_run llm_invoke parse_json_markdown
    ((fun d => Task.mk d None) <$> values) w1 = (Ok ts, w2) ->
  ts <> [] ->
  Forall (fun t => is_Some (Task.role t)) ts ->
  (forall messages w, exists out m w',
      baseAgent_invoke messages w = (Ok out, w') /\ last out = Some m) ->
  (forall q rs w, exists text w',
      llm_invoke (Reporter_prompt q rs) w = (Ok text, w')) ->
  length ts + 4 <= limit ->
  exists s,
    outcome (invoke G' (initialState q) limit w) = Ok s /\
    tasks s = ts /\ currentTaskIndex s = length ts /\ query s = q /\
    length (trace (invoke G' (initialState q) limit w)) = length ts + 3 /\
    (limit = recursionLimit -> (run' q w).1 = Ok (finalReport s)).
Proof.
  intros Hd Hr Hne Hroles Hagent Hllm Hlimit.
  destruct limit as [|[|limit]]; [lia|lia|].
  assert (exists k, length ts = S k) as [k Hk].
  { destruct ts; [done|]. simpl. eauto. }
  destruct (executor_loop_completes Hagent Hllm k limit
              (mkAgentState q ts 0 [] "") w2) as (s & Ho & Hts & Hi & Hq & Hlen);
    [done | simpl; lia | lia |].
  exists s.
  assert (invoke G' (initialState q) (S (S limit)) w =
          mkRun (mkStep planner (initialState q)
                   (Ok (mkAgentState q ((fun d => Task.mk d None) <$> values) 0 [] ""))
                 :: mkStep roleAssigner
                      (mkAgentState q ((fun d => Task.mk d None) <$> values) 0 [] "")
                      (Ok (mkAgentState q ts 0 [] ""))
                 :: trace (superSteps G' limit executor (mkAgentState q ts 0 [] "") w2))
            (outcome (superSteps G' limit executor (mkAgentState q ts 0 [] "") w2))
            (world_after (superSteps G' limit executor (mkAgentState q ts 0 [] "") w2)))
    as Hrun.
  { rewrite invoke_S, superSteps_S. simpl entryPoint. simpl nodes.
    rewrite (planTasks_eq (initialState q) w values w1 Hd).
    cbv zeta. simpl edges. cbv iota. rewrite superSteps_S. simpl nodes.
    erewrite assignRoles_eq; [|exact Hr].
    cbv zeta. simpl edges. cbv iota. reflexivity. }
  split; [by rewrite Hrun|]. simpl in Hts, Hi, Hq.
  split; [done|]. split; [done|]. split; [done|].
  split; [rewrite Hrun; simpl; lia|].
  intros Hl. rewrite run_outcome, <- Hl, Hrun. simpl. by rewrite Ho.
Qed.

End MoreRuns.

(** ** The further properties on concrete inputs *)

Lemma two_task_run_assign :
  trace Stub.two_task_run !! 1 =
    Some (Stub.assign Stub.two Stub.two_assigned Stub.compare).
Proof. by rewrite two_task_run_trace. Qed.

Lemma no_task_run_assign :
  trace Stub.no_task_run !! 1 = Some (Stub.assign [] [] Stub.compare).
Proof. vm_compute. reflexivity. Qed.

(** Under a limit of four the two-task run spends its four steps. *)
Lemma run_error_propagates_witness :
  (exists st, last (trace Stub.capped_run) = Some st /\
              step_post st = Err GraphRecursionError) \/
  (GraphRecursionError = GraphRecursionError /\ 0 < 4 /\
   length (trace Stub.capped_run) = 4 /\
   Forall (fun st => exists s', step_post st = Ok s') (trace Stub.capped_run)) \/
  (GraphRecursionError = InvalidRecursionLimit /\ 4 = 0 /\
   trace Stub.capped_run = []).
Proof.
  exact (proj1 (proj2 (run_error_propagates (Stub.decomposer Stub.two)
                         (Stub.llm "<json>")
                         (Stub.reader "<json>" (TasksWithRoles_to_json Stub.two_assigned))
                         Stub.agent 4 Stub.compare 0 GraphRecursionError
                         (proj2 capped_run_trace)))).
Defined.

(** The second pass of the two-task run is entered with the caller's query
    and no report. *)
Lemma run_keeps_query_and_empty_report_witness :
  query (step_pre (Stub.pass Stub.two_assigned Stub.compare 1)) = Stub.compare /\
  finalReport (step_pre (Stub.pass Stub.two_assigned Stub.compare 1)) = "".
Proof.
  pose proof (run_keeps_query_and_empty_report (Stub.decomposer Stub.two)
                (Stub.llm "<json>")
                (Stub.reader "<json>" (TasksWithRoles_to_json Stub.two_assigned))
                Stub.agent recursionLimit Stub.compare 0 3
                (Stub.pass Stub.two_assigned Stub.compare 1) two_task_run_pass2)
    as (Hq & Hf & _).
  exact (conj Hq Hf).
Defined.

(** The role assigner of the two-task run is entered with the two planned
    tasks. *)
Lemma roleAssigner_entered_with_planned_tasks_witness :
  exists values w1,
    Stub.decomposer Stub.two Stub.compare 0 = (Ok values, w1) /\
    step_node (Stub.assign Stub.two Stub.two_assigned Stub.compare) = roleAssigner /\
    step_pre (Stub.assign Stub.two Stub.two_assigned Stub.compare) =
      mkAgentState Stub.compare ((fun d => Task.mk d None) <$> values) 0 [] "".
Proof.
  exact (roleAssigner_entered_with_planned_tasks (Stub.decomposer Stub.two)
           (Stub.llm "<json>")
           (Stub.reader "<json>" (TasksWithRoles_to_json Stub.two_assigned))
           Stub.agent recursionLimit Stub.compare 0
           (Stub.assign Stub.two Stub.two_assigned Stub.compare)
           two_task_run_assign).
Defined.

(** The two-task run ends well after five steps. *)
Lemma successful_run_shape_witness :
  tasks (Stub.reported Stub.two_assigned Stub.compare 2) <> [] /\
  length (trace Stub.two_task_run) =
    length (tasks (Stub.reported Stub.two_assigned Stub.compare 2)) + 3.
Proof.
  pose proof (successful_run_shape (Stub.decomposer Stub.two) (Stub.llm "<json>")
                (Stub.reader "<json>" (TasksWithRoles_to_json Stub.two_assigned))
                Stub.agent recursionLimit Stub.compare 0
                (Stub.reported Stub.two_assigned Stub.compare 2)
                two_task_run_outcome)
    as (Hne & _ & _ & _ & Hlen & _).
  exact (conj Hne Hlen).
Defined.

(** The stub collaborators meet the conditions of a run that finishes. *)
Lemma run_completes_witness :
  exists s, outcome Stub.two_task_run = Ok s /\ tasks s = Stub.two_assigned.
Proof.
  destruct (run_completes (Stub.decomposer Stub.two) (Stub.llm "<json>")
              (Stub.reader "<json>" (TasksWithRoles_to_json Stub.two_assigned))
              Stub.agent recursionLimit Stub.compare 0 Stub.two 0
              Stub.two_assigned 0) as (s & Ho & Ht & _).
  - reflexivity.
  - reflexivity.
  - done.
  - repeat constructor; by eexists.
  - intros messages w. eexists _, _, _. split; [reflexivity|apply last_snoc].
  - intros q rs w. eexists _, _. reflexivity.
  - unfold recursionLimit. simpl. lia.
  - exists s. by split.
Defined.

(** The second pass of the two-task run. *)
Lemma executor_pass_overwrites_results_witness :
  3 = currentTaskIndex (step_pre (Stub.pass Stub.two_assigned Stub.compare 1)) + 2 /\
  currentTaskIndex (Stub.executed Stub.two_assigned Stub.compare 2) =
    currentTaskIndex (step_pre (Stub.pass Stub.two_assigned Stub.compare 1)) + 1 /\
  (exists w1 w2 result,
      Executor_run Stub.agent
        (tasks (step_pre (Stub.pass Stub.two_assigned Stub.compare 1))
           !! currentTaskIndex (step_pre (Stub.pass Stub.two_assigned Stub.compare 1)))
        w1 = (Ok result, w2) /\
      results (Stub.executed Stub.two_assigned Stub.compare 2) = [result]) /\
  tasks (Stub.executed Stub.two_assigned Stub.compare 2) =
    tasks (step_pre (Stub.pass Stub.two_assigned Stub.compare 1)).
Proof.
  exact (executor_pass_overwrites_results (Stub.decomposer Stub.two)
           (Stub.llm "<json>")
           (Stub.reader "<json>" (TasksWithRoles_to_json Stub.two_assigned))
           Stub.agent recursionLimit Stub.compare 0 3
           (Stub.pass Stub.two_assigned Stub.compare 1)
           (Stub.executed Stub.two_assigned Stub.compare 2)
           two_task_run_pass2 eq_refl eq_refl).
Defined.

(** The reporter of the two-task run reads one result of two tasks. *)
Lemma reporter_reads_one_result_witness :
  length (results (step_pre (Stub.report Stub.two_assigned Stub.compare 2))) = 1 /\
  currentTaskIndex (step_pre (Stub.report Stub.two_assigned Stub.compare 2)) =
    length (tasks (step_pre (Stub.report Stub.two_assigned Stub.compare 2))) /\
  0 < length (tasks (step_pre (Stub.report Stub.two_assigned Stub.compare 2))).
Proof.
  exact (reporter_reads_one_result (Stub.decomposer Stub.two) (Stub.llm "<json>")
           (Stub.reader "<json>" (TasksWithRoles_to_json Stub.two_assigned))
           Stub.agent recursionLimit Stub.compare 0 4
           (Stub.report Stub.two_assigned Stub.compare 2)
           two_task_run_report eq_refl).
Defined.

(** The run without tasks ends on the executor's [TypeError]. *)
Lemma empty_tasks_TypeError_witness :
  outcome Stub.no_task_run =
    Err (TypeError "Cannot read properties of undefined (reading 'role')").
Proof.
  pose proof (empty_tasks_TypeError (Stub.decomposer []) (Stub.llm "<json>")
                (Stub.reader "<json>" (TasksWithRoles_to_json []))
                Stub.agent recursionLimit Stub.compare 0
                (Stub.assign [] [] Stub.compare)
                (Stub.executed [] Stub.compare 0)
                no_task_run_assign eq_refl eq_refl) as H.
  cbv zeta in H. destruct H as (_ & _ & Ho).
  - unfold recursionLimit. lia.
  - exact Ho.
Defined.
